(** * string-wizard: similarity scores for strings and personal names

    A shallow embedding of [src/index.js] (compareStrings, stripDiacritics,
    sanitizeName, structuralBonus, compareNames) and the properties its
    specification states about it.

    - JavaScript strings are sequences of UTF-16 code units: [list N].
    - JavaScript numbers are IEEE 754 binary64 values: [spec_float] with
      precision 53 and maximal exponent 1024; every arithmetic operation of
      the source is the correctly rounded operation of [SpecFloat].
    - Array lengths, loop counters and the cells of the two dynamic
      programming tables are integers far below 2^53, where binary64
      arithmetic is exact: they are [nat], and are converted to binary64 at
      the divisions.
    - [String.prototype.toLowerCase] and [String.prototype.normalize] depend
      on the Unicode tables of the JavaScript engine, not on the repository:
      they are the two operations of the class [Runtime]. *)

From Stdlib Require Import ZArith NArith Lia Bool String Ascii SpecFloat.
From stdpp Require Import base option list gmap sets.

(** ** JavaScript numbers *)

Module Num.

Abbreviation number := spec_float.

Definition prec : Z := 53.
Definition emax : Z := 1024.

Definition add : number → number → number := SFadd prec emax.
Definition sub : number → number → number := SFsub prec emax.
Definition mul : number → number → number := SFmul prec emax.
Definition div : number → number → number := SFdiv prec emax.

(** The binary64 value of an integer (exact below 2^53). *)
Definition of_Z (z : Z) : number := binary_normalize prec emax z 0 false.
Definition of_nat (n : nat) : number := of_Z (Z.of_nat n).

(** A decimal literal [m / 10^k] of the source text denotes the binary64
    value nearest to it, which is what the correctly rounded division of
    the two (exactly representable) integers yields. *)
Definition dec (m : Z) (k : nat) : number := div (of_Z m) (of_Z (10 ^ Z.of_nat k)).

Definition zero : number := S754_zero false.
Definition one : number := of_Z 1.

(** [Math.max] and [Math.min] on two arguments: NaN is contagious and
    [+0] is larger than [-0]. *)
Definition max (x y : number) : number :=
  match SFcompare x y with
  | None => S754_nan
  | Some Lt => y
  | Some Gt => x
  | Some Eq => match x with S754_zero true => y | _ => x end
  end.

Definition min (x y : number) : number :=
  match SFcompare x y with
  | None => S754_nan
  | Some Lt => x
  | Some Gt => y
  | Some Eq => match x with S754_zero false => y | _ => x end
  end.

(** The relational operators [<=] and [>=] of the language (false on NaN). *)
Definition leb (x y : number) : bool := SFleb x y.
Definition geb (x y : number) : bool := SFleb y x.

Definition is_nan (x : number) : bool :=
  match x with S754_nan => true | _ => false end.

End Num.

Abbreviation number := Num.number.

(** ** JavaScript strings and values *)

(** A string is its sequence of UTF-16 code units. *)
Abbreviation codeunit := N.
Abbreviation jsstring := (list N).

(** The code units of an ASCII literal. *)
Definition js (s : string) : jsstring := map N_of_ascii (list_ascii_of_string s).

(** The arguments the exported functions are documented for: a string, or
    an absent value ([undefined], [null]). *)
Inductive jsval : Type :=
  | JUndefined
  | JNull
  | JStr (s : jsstring).

(** Truthiness: [undefined], [null] and the empty string are falsy. *)
Definition truthy_str (s : jsstring) : bool :=
  match s with [] => false | _ => true end.

Definition truthy (v : jsval) : bool :=
  match v with
  | JUndefined | JNull => false
  | JStr s => truthy_str s
  end.

(** [String(v)] *)
Definition String_of (v : jsval) : jsstring :=
  match v with
  | JUndefined => js "undefined"
  | JNull => js "null"
  | JStr s => s
  end.

(** *** Character classes of the regular expressions in the source *)

Definition in_range (lo hi c : N) : bool := (lo <=? c)%N && (c <=? hi)%N.

(** [\w]: [A-Za-z0-9_] (the expressions carry no [u] or [i] flag). *)
Definition is_word (c : codeunit) : bool :=
  in_range 65 90 c || in_range 97 122 c || in_range 48 57 c || (c =? 95)%N.

(** [\W] *)
Definition is_nonword (c : codeunit) : bool := negb (is_word c).

(** [\s], which is also the set [String.prototype.trim] strips: the
    WhiteSpace and LineTerminator code points of ECMAScript. *)
Definition is_space (c : codeunit) : bool :=
  in_range 9 13 c || (c =? 32)%N || (c =? 160)%N || (c =? 5760)%N
  || in_range 8192 8202 c || (c =? 8232)%N || (c =? 8233)%N
  || (c =? 8239)%N || (c =? 8287)%N || (c =? 12288)%N || (c =? 65279)%N.

(** The punctuation class of [sanitizeName]: underscore, full stop, comma,
    solidus, reverse solidus, apostrophe, U+2019 (right single quotation
    mark), quotation mark, hyphen-minus. *)
Definition is_punct (c : codeunit) : bool :=
  (c =? 95)%N || (c =? 46)%N || (c =? 44)%N || (c =? 47)%N || (c =? 92)%N
  || (c =? 39)%N || (c =? 8217)%N || (c =? 34)%N || (c =? 45)%N.

(** [[\u0300-\u036f]]: the combining diacritical marks block. *)
Definition is_combining_mark (c : codeunit) : bool := in_range 768 879 c.

(** [[a-z]] *)
Definition is_lower_az (c : codeunit) : bool := in_range 97 122 c.

Definition SPACE : codeunit := 32%N.
Definition DOT : codeunit := 46%N.

(** *** String methods *)

Fixpoint drop_while {A} (p : A → bool) (l : list A) : list A :=
  match l with
  | [] => []
  | x :: l' => if p x then drop_while p l' else l
  end.

(** [s.trim()] *)
Definition trim_start (s : jsstring) : jsstring := drop_while is_space s.
Definition trim_end (s : jsstring) : jsstring := reverse (drop_while is_space (reverse s)).
Definition trim (s : jsstring) : jsstring := trim_end (trim_start s).

(** [s.replace(/[cls]+/g, ' ')]: every maximal run of characters of the
    class becomes one space. [inrun] tells that the previous character
    belonged to the run being replaced. *)
Fixpoint replace_runs_from (cls : codeunit → bool) (inrun : bool) (s : jsstring) : jsstring :=
  match s with
  | [] => []
  | c :: s' =>
      if cls c
      then if inrun then replace_runs_from cls true s'
           else SPACE :: replace_runs_from cls true s'
      else c :: replace_runs_from cls false s'
  end.

Definition replace_runs (cls : codeunit → bool) (s : jsstring) : jsstring :=
  replace_runs_from cls false s.

(** [s.split(/[cls]+/)]: the pieces between the maximal runs of separator
    characters; a run at either end leaves an empty piece there, and the
    empty string splits into one empty piece. [cur] is the piece being
    read. *)
Fixpoint split_runs_from (cls : codeunit → bool) (cur : jsstring) (insep : bool)
    (s : jsstring) : list jsstring :=
  match s with
  | [] => [cur]
  | c :: s' =>
      if cls c
      then if insep then split_runs_from cls cur true s'
           else cur :: split_runs_from cls [] true s'
      else split_runs_from cls (cur ++ [c]) false s'
  end.

Definition split_runs (cls : codeunit → bool) (s : jsstring) : list jsstring :=
  split_runs_from cls [] false s.

(** [s.split(' ')]: the pieces between the single occurrences of the
    separator. *)
Fixpoint split_char_from (sep : codeunit) (cur : jsstring) (s : jsstring) : list jsstring :=
  match s with
  | [] => [cur]
  | c :: s' =>
      if (c =? sep)%N then cur :: split_char_from sep [] s'
      else split_char_from sep (cur ++ [c]) s'
  end.

Definition split_char (sep : codeunit) (s : jsstring) : list jsstring :=
  split_char_from sep [] s.

(** [pieces.join(' ')] *)
Fixpoint join (sep : codeunit) (pieces : list jsstring) : jsstring :=
  match pieces with
  | [] => []
  | [p] => p
  | p :: rest => p ++ sep :: join sep rest
  end.

(** [pieces.filter(Boolean)] *)
Definition filter_Boolean (pieces : list jsstring) : list jsstring :=
  filter (λ p, truthy_str p = true) pieces.

(** ** The engine's Unicode operations *)

Class Runtime : Type := {
  (** [s.toLowerCase()] *)
  toLowerCase : jsstring → jsstring;
  (** [s.normalize('NFKD')] *)
  normalizeNFKD : jsstring → jsstring;
  (** Lower-casing maps no text to white space: a string that keeps
      characters under [trim] still does after [toLowerCase]. *)
  toLowerCase_keeps_text : ∀ s, trim s ≠ [] → trim (toLowerCase s) ≠ []
}.

(** ** Arrays of arrays *)

(** [t[r][c]], with [d] where the source would read [undefined]. *)
Definition rd {A} (d : A) (t : list (list A)) (r c : nat) : A :=
  default d (t !! r ≫= (.!! c)).

(** [t[r][c] = v] *)
Definition wr {A} (t : list (list A)) (r c : nat) (v : A) : list (list A) :=
  alter (λ row, <[c := v]> row) r t.

(** The number in a cell that was filled with [null]: [null] counts as 0
    in arithmetic. *)
Definition num_of_cell (x : option nat) : nat := default 0 x.

(** ** compareStrings *)

Section CompareStrings.

(** *** Levenshtein distance, [levenshtein] (lines 27-44) *)

Definition lev_cell (s1 s2 : jsstring) (dp : list (list (option nat))) (j i : nat)
    : list (list (option nat)) :=
  let cost := if bool_decide (s1 !! (i - 1) = s2 !! (j - 1)) then 0 else 1 in
  wr dp j i
    (Some (Nat.min (num_of_cell (rd None dp (j - 1) i) + 1)
            (Nat.min (num_of_cell (rd None dp j (i - 1)) + 1)
                     (num_of_cell (rd None dp (j - 1) (i - 1)) + cost)))).

Definition lev_table (s1 s2 : jsstring) : list (list (option nat)) :=
  let dp := replicate (length s2 + 1) (replicate (length s1 + 1) None) in
  let dp := foldl (λ dp i, wr dp 0 i (Some i)) dp (seq 0 (length s1 + 1)) in
  let dp := foldl (λ dp j, wr dp j 0 (Some j)) dp (seq 0 (length s2 + 1)) in
  foldl (λ dp j, foldl (λ dp i, lev_cell s1 s2 dp j i) dp (seq 1 (length s1)))
    dp (seq 1 (length s2)).

Definition levenshtein (s1 s2 : jsstring) : nat :=
  num_of_cell (rd None (lev_table s1 s2) (length s2) (length s1)).

(** [1 - lev / Math.max(a.length, b.length)] *)
Definition levScore (a b : jsstring) : number :=
  Num.sub Num.one
    (Num.div (Num.of_nat (levenshtein a b))
             (Num.of_nat (Nat.max (length a) (length b)))).

(** *** Token Jaccard (lines 49-54) *)

Definition tokenize (str : jsstring) : list jsstring :=
  filter_Boolean (split_runs is_nonword str).

Definition token_set (str : jsstring) : gset jsstring :=
  list_to_set (tokenize str).

Definition jaccard_inter (a b : jsstring) : nat :=
  length (filter (λ x, x ∈ token_set b) (elements (token_set a))).

Definition jaccard_union (a b : jsstring) : nat :=
  size (list_to_set (elements (token_set a) ++ elements (token_set b)) : gset jsstring).

Definition jaccard (a b : jsstring) : number :=
  match jaccard_union a b with
  | 0 => Num.zero
  | S _ as union => Num.div (Num.of_nat (jaccard_inter a b)) (Num.of_nat union)
  end.

(** *** Longest common substring, [lcs] (lines 57-73) *)

Definition lcs_cell (s1 s2 : jsstring) (st : list (list nat) * nat) (i j : nat)
    : list (list nat) * nat :=
  let '(m, longest) := st in
  if bool_decide (s1 !! i = s2 !! j) then
    let v := (match i, j with
              | S _, S _ => rd 0 m (i - 1) (j - 1)
              | _, _ => 0
              end) + 1 in
    (wr m i j v, if longest <? v then v else longest)
  else (m, longest).

Definition lcs_run (s1 s2 : jsstring) : list (list nat) * nat :=
  let m := replicate (length s1) (replicate (length s2) 0) in
  foldl (λ st i, foldl (λ st j, lcs_cell s1 s2 st i j) st (seq 0 (length s2)))
    (m, 0) (seq 0 (length s1)).

Definition lcs_longest (s1 s2 : jsstring) : nat := snd (lcs_run s1 s2).

Definition lcs (s1 s2 : jsstring) : number :=
  match Nat.max (length s1) (length s2) with
  | 0 => Num.zero
  | S _ as mx => Num.div (Num.of_nat (lcs_longest s1 s2)) (Num.of_nat mx)
  end.

(** *** The weighted blend (lines 77-78) *)

Definition confidence (a b : jsstring) : number :=
  Num.add
    (Num.add (Num.mul (levScore a b) (Num.dec 5 1))
             (Num.mul (jaccard a b) (Num.dec 3 1)))
    (Num.mul (lcs a b) (Num.dec 2 1)).

Definition clamp01 (x : number) : number := Num.max Num.zero (Num.min Num.one x).

Context `{Runtime}.

(** [a.toLowerCase().trim()] *)
Definition normalize (a : jsstring) : jsstring := trim (toLowerCase a).

(** The guard [if (!a || !b) return 0] lets only non-empty strings
    through; [receiver] is the string the methods are then called on. *)
Definition receiver (v : jsval) : jsstring :=
  match v with JStr s => s | _ => [] end.

Definition compareStrings (a b : jsval) : number :=
  if negb (truthy a) || negb (truthy b) then Num.zero
  else
    let a := normalize (receiver a) in
    let b := normalize (receiver b) in
    clamp01 (confidence a b).

End CompareStrings.

(** ** stripDiacritics, sanitizeName, structuralBonus, compareNames *)

Definition HONORIFICS : gset jsstring :=
  list_to_set (js <$> ["mr"; "mrs"; "ms"; "miss"; "mx"; "dr"; "prof"; "sir"; "dame"]%string).

Definition SUFFIXES : gset jsstring :=
  list_to_set (js <$> ["jr"; "sr"; "ii"; "iii"; "iv"; "v"; "md"; "phd"; "esq"]%string).

(** [t.replace(/\.+$/, '')] *)
Definition strip_trailing_dots (t : jsstring) : jsstring :=
  reverse (drop_while (λ c, (c =? DOT)%N) (reverse t)).

(** [/^[a-z]$/.test(t)] *)
Definition is_single_letter (t : jsstring) : bool :=
  match t with
  | [c] => is_lower_az c
  | _ => false
  end.

(** [while (tokens.length && HONORIFICS.has(tokens[0])) tokens.shift()] *)
Fixpoint drop_honorifics (tokens : list jsstring) : list jsstring :=
  match tokens with
  | [] => []
  | t :: rest =>
      if bool_decide (t ∈ HONORIFICS) then drop_honorifics rest else tokens
  end.

(** The condition of the second loop. *)
Definition ends_with_suffix (tokens : list jsstring) : bool :=
  match last tokens with
  | Some t => bool_decide (strip_trailing_dots t ∈ SUFFIXES)
  | None => false
  end.

(** [while (... SUFFIXES.has(...)) tokens.pop()], at most [fuel] times. *)
Fixpoint pop_suffixes (fuel : nat) (tokens : list jsstring) : list jsstring :=
  match fuel with
  | 0 => tokens
  | S fuel' =>
      if ends_with_suffix tokens then pop_suffixes fuel' (removelast tokens)
      else tokens
  end.

(** One turn of the loop over the tokens (lines 160-170): the state is
    [(collapsed, buffer)]. *)
Definition collapse_step (st : list jsstring * jsstring) (t : jsstring)
    : list jsstring * jsstring :=
  let '(collapsed, buffer) := st in
  if is_single_letter t then (collapsed, buffer ++ t)
  else
    let collapsed := if truthy_str buffer then collapsed ++ [buffer] else collapsed in
    let buffer := if truthy_str buffer then [] else buffer in
    (collapsed ++ [t], buffer).

Definition collapse_initials (tokens : list jsstring) : list jsstring :=
  let '(collapsed, buffer) := foldl collapse_step ([], []) tokens in
  if truthy_str buffer then collapsed ++ [buffer] else collapsed.

Section Names.

Context `{Runtime}.

(** [s.normalize('NFKD').replace(/[\u0300-\u036f]/g, '')] *)
Definition stripDiacritics (s : jsstring) : jsstring :=
  filter (λ c, is_combining_mark c = false) (normalizeNFKD s).

(** The token list after both stripping loops (lines 141-156). *)
Definition stripped_tokens (s : jsval) : list jsstring :=
  let x := toLowerCase (stripDiacritics (String_of s)) in
  let x := trim (replace_runs is_space (replace_runs is_punct x)) in
  let tokens := filter_Boolean (split_char SPACE x) in
  let tokens := drop_honorifics tokens in
  pop_suffixes (length tokens) tokens.

Definition sanitizeName (s : jsval) : jsstring :=
  if negb (truthy s) then []
  else
    let collapsed := collapse_initials (stripped_tokens s) in
    trim (replace_runs is_space (join SPACE collapsed)).

End Names.

(** Truthiness and [t[0]] of an array element that may be [undefined]. *)
Definition truthy_elem (t : option jsstring) : bool :=
  match t with Some s => truthy_str s | None => false end.

Definition first_unit (t : option jsstring) : option codeunit := t ≫= (.!! 0).

Definition structuralBonus (aSan bSan : jsstring) : number :=
  let aT := filter_Boolean (split_char SPACE aSan) in
  let bT := filter_Boolean (split_char SPACE bSan) in
  if (length aT =? 0) || (length bT =? 0) then Num.zero
  else
    let aLast := aT !! (length aT - 1) in
    let bLast := bT !! (length bT - 1) in
    let lastMatch :=
      if truthy_elem aLast && truthy_elem bLast && bool_decide (aLast = bLast)
      then Num.dec 5 2 else Num.zero in
    let aFirst := aT !! 0 in
    let bFirst := bT !! 0 in
    let firstInitialMatch :=
      if truthy_elem aFirst && truthy_elem bFirst
         && bool_decide (first_unit aFirst = first_unit bFirst)
      then Num.dec 2 2 else Num.zero in
    Num.add lastMatch firstInitialMatch.

(** The hook [joinSingles] of [compareNames] (lines 231-235); the source
    never calls it. *)
Definition joinSingles (s : jsstring) : jsstring :=
  join SPACE ((λ t, if length t =? 1 then t else t) <$> split_char SPACE s).

Section CompareNames.

Context `{Runtime}.

Definition compareNames (a b : jsval) : number :=
  let aSan := sanitizeName a in
  let bSan := sanitizeName b in
  let variantsA := [aSan] in
  let variantsB := [bSan] in
  foldl (λ best va,
    foldl (λ best vb,
      let base := compareStrings (JStr va) (JStr vb) in
      let bonus := structuralBonus va vb in
      Num.max best (Num.min Num.one (Num.add base bonus)))
      best variantsB)
    Num.zero variantsA.

End CompareNames.

(** ** An instance of the engine's operations

    The case mapping and the decomposition mappings of the Unicode
    Character Database for Basic Latin and the Latin-1 Supplement
    (U+0000 to U+00FF), and three characters beyond them. On strings of
    these code units the two operations below are those of an ECMAScript
    engine; any other code unit is left as it is. *)

Module Latin1.

Definition lower_unit (c : codeunit) : codeunit :=
  if in_range 65 90 c then (c + 32)%N
  else if in_range 192 222 c && negb (c =? 215)%N then (c + 32)%N
  else c.

Definition lower (s : jsstring) : jsstring := lower_unit <$> s.

(** Base letter and combining mark of the letters U+00C0 to U+00DE, by
    their offset from U+00C0; the letters U+00E0 to U+00FE repeat the
    pattern on the small letters. *)
Definition accented : list (N * (N * N)) :=
  [ (0, (65, 768)); (1, (65, 769)); (2, (65, 770)); (3, (65, 771));
    (4, (65, 776)); (5, (65, 778)); (7, (67, 807));
    (8, (69, 768)); (9, (69, 769)); (10, (69, 770)); (11, (69, 776));
    (12, (73, 768)); (13, (73, 769)); (14, (73, 770)); (15, (73, 776));
    (17, (78, 771));
    (18, (79, 768)); (19, (79, 769)); (20, (79, 770)); (21, (79, 771));
    (22, (79, 776));
    (25, (85, 768)); (26, (85, 769)); (27, (85, 770)); (28, (85, 776));
    (29, (89, 769)) ]%N.

Fixpoint assoc {B} (k : N) (l : list (N * B)) : option B :=
  match l with
  | [] => None
  | (k', v) :: l' => if (k =? k')%N then Some v else assoc k l'
  end.

(** Canonical decomposition mappings. *)
Definition canonical_unit (c : codeunit) : option jsstring :=
  if in_range 192 222 c then
    (λ '(b, m), [b; m]) <$> assoc (c - 192) accented
  else if in_range 224 254 c then
    (λ '(b, m), [b + 32; m]%N) <$> assoc (c - 224) accented
  else if (c =? 255)%N then Some [121; 776]%N
  else if (c =? 8491)%N then Some [65; 778]%N          (* U+212B ANGSTROM SIGN *)
  else None.

(** Compatibility decomposition mappings. *)
Definition compat : list (N * jsstring) :=
  [ (160, [32]); (168, [32; 776]); (170, [97]); (175, [32; 772]);
    (178, [50]); (179, [51]); (180, [32; 769]); (181, [956]);
    (184, [32; 807]); (185, [49]); (186, [111]);
    (188, [49; 8260; 52]); (189, [49; 8260; 50]); (190, [51; 8260; 52]);
    (9312, [49]);                                      (* U+2460 CIRCLED DIGIT ONE *)
    (64257, [102; 105]) ]%N.                           (* U+FB01 LATIN SMALL LIGATURE FI *)

(** [s.normalize('NFD')] and [s.normalize('NFKD')] *)
Definition nfd (s : jsstring) : jsstring :=
  s ≫= (λ c, default [c] (canonical_unit c)).

Definition nfkd (s : jsstring) : jsstring :=
  s ≫= (λ c, default (default [c] (assoc c compat)) (canonical_unit c)).

End Latin1.


(** * The notions of the specification *)

(** An argument that is absent, null, or the empty string. *)
Definition absent (v : jsval) : Prop := v = JUndefined ∨ v = JNull ∨ v = JStr [].

(** The tokens of a sanitized string: split on spaces, empties discarded. *)
Definition space_tokens (s : jsstring) : list jsstring :=
  filter_Boolean (split_char SPACE s).

(** [structuralBonus] on the token lists its own split yields, with the
    guarded accesses of lines 196-203 resolved: 0 when either list is
    empty, otherwise 0.05 for equal last tokens plus 0.02 for equal first
    characters of the first tokens. *)
Definition structuralBonus_spec (aSan bSan : jsstring) : number :=
  match last (space_tokens aSan), last (space_tokens bSan),
        head (space_tokens aSan), head (space_tokens bSan) with
  | Some aLast, Some bLast, Some aFirst, Some bFirst =>
      Num.add (if bool_decide (aLast = bLast) then Num.dec 5 2 else Num.zero)
              (if bool_decide (head aFirst = head bFirst) then Num.dec 2 2 else Num.zero)
  | _, _, _, _ => Num.zero
  end.

(** [stripDiacritics] as the specification words it, over a canonical
    decomposition [canonical]: decompose, then delete the marks of
    U+0300 to U+036F. *)
Definition stripDiacritics_canonical (canonical : jsstring → jsstring)
    (s : jsstring) : jsstring :=
  filter (λ c, is_combining_mark c = false) (canonical s).

(** White space at either end of a string, and two white space characters
    in a row. *)
Definition outer_space (s : jsstring) : bool :=
  from_option is_space false (head s) || from_option is_space false (last s).





(** The loop of lines 160-171 as a recursion over the tokens, with the
    pending [buffer]. *)
Fixpoint collapse_from (buffer : jsstring) (tokens : list jsstring) : list jsstring :=
  match tokens with
  | [] => if truthy_str buffer then [buffer] else []
  | t :: rest =>
      if is_single_letter t then collapse_from (buffer ++ t) rest
      else (if truthy_str buffer then [buffer] else []) ++ t :: collapse_from [] rest
  end.

(** A token of a sanitized name: not empty, no white space in it. *)
Definition good_token (t : jsstring) : Prop :=
  t ≠ [] ∧ Forall (λ c, is_space c = false) t.

(** A number that is NaN or carries the sign [+]. *)
Definition not_negative (x : number) : Prop :=
  match x with
  | S754_zero false | S754_infinity false | S754_finite false _ _ | S754_nan => True
  | _ => False
  end.

(** ** Edit distance *)

(** One edit operation somewhere in a string: the deletion, the insertion
    or the substitution of a single character. *)
Inductive edit_step : jsstring → jsstring → Prop :=
  | edit_delete c s : edit_step (c :: s) s
  | edit_insert c s : edit_step s (c :: s)
  | edit_substitute c d s : edit_step (c :: s) (d :: s)
  | edit_further c s t : edit_step s t → edit_step (c :: s) (c :: t).

(** [edit_path n a b]: [n] edit operations in a row turn [a] into [b]. *)
Inductive edit_path : nat → jsstring → jsstring → Prop :=
  | path_done s : edit_path 0 s s
  | path_step n s t u : edit_step s t → edit_path n t u → edit_path (S n) s u.

(** The Levenshtein distance: the minimum number of edit operations. *)
Definition edit_distance (a b : jsstring) (d : nat) : Prop :=
  edit_path d a b ∧ ∀ n, edit_path n a b → d ≤ n.

(** The recurrence of Wagner and Fischer, on the first characters. *)
Fixpoint lev (s : jsstring) : jsstring → nat :=
  match s with
  | [] => λ t, length t
  | c :: s' =>
      fix lev_s (t : jsstring) : nat :=
        match t with
        | [] => length s
        | d :: t' =>
            Nat.min (lev_s t' + 1)
              (Nat.min (lev s' t + 1)
                       (lev s' t' + (if bool_decide (c = d) then 0 else 1)))
        end
  end.

(** ** Longest common substring *)

(** The length of the longest common suffix of the first [i + 1] characters
    of [s1] and the first [j + 1] characters of [s2]. *)
Fixpoint common_suffix (s1 s2 : jsstring) (i j : nat) : nat :=
  if bool_decide (s1 !! i = s2 !! j) then
    S (match i, j with
       | S i', S j' => common_suffix s1 s2 i' j'
       | _, _ => 0
       end)
  else 0.

(** [L] is the length of the longest common substring of [s1] and [s2]:
    the largest [common_suffix] over the positions of the two strings. *)
Definition longest_common (s1 s2 : jsstring) (L : nat) : Prop :=
  (∀ i j, i < length s1 → j < length s2 → common_suffix s1 s2 i j ≤ L)
  ∧ (L = 0 ∨ ∃ i j, i < length s1 ∧ j < length s2 ∧ common_suffix s1 s2 i j = L).

(** ** Tables *)

(** The cell [t[r][c]], if there is one. *)
Definition cell {A} (t : list (list A)) (r c : nat) : option A := t !! r ≫= (.!! c).

(** [t] has [rows] rows of [cols] cells each. *)
Definition dims {A} (t : list (list A)) (rows cols : nat) : Prop :=
  length t = rows ∧ Forall (λ row, length row = cols) t.

(** ** Binary64 values *)

(** The exponent of the smallest positive binary64 number. *)
Definition emin : Z := -1074.

(** The value of a number that is not negative, in units of [2^emin]:
    every such binary64 number is a whole multiple of the unit. Infinity
    counts as [2^1024]. *)
Definition val (x : number) : Z :=
  match x with
  | S754_finite false m e => Z.pos m * 2 ^ (e - emin)
  | S754_infinity false => 2 ^ (1024 - emin)
  | _ => 0
  end.

(** [+0] and the positive finite numbers in canonical form. *)
Definition fine (x : number) : Prop :=
  match x with
  | S754_zero false => True
  | S754_finite false m e => bounded Num.prec Num.emax m e = true
  | _ => False
  end.

(** A fine number or [+infinity]. *)
Definition good (x : number) : Prop := fine x ∨ x = S754_infinity false.

(** A positive number in canonical form with a full 53-bit mantissa. *)
Definition normal (x : number) : Prop :=
  match x with
  | S754_finite false m e => bounded Num.prec Num.emax m e = true ∧ (2 ^ 52 ≤ Z.pos m)%Z
  | _ => False
  end.

(** [+0], a positive finite number, or [+infinity]: not NaN, not negative. *)
Definition nonneg_num (x : number) : Prop :=
  match x with
  | S754_zero false | S754_finite false _ _ | S754_infinity false => True
  | _ => False
  end.

(** The last step of [binary_round_aux]: the rounded mantissa is brought
    back into range and the result is classified. *)
Definition finish (sx : bool) (m e : Z) : number :=
  let '(mrs, e') := shr_fexp Num.prec Num.emax m e loc_Exact in
  match shr_m mrs with
  | Z0 => S754_zero sx
  | Zpos m' =>
      if (e' <=? Num.emax - Num.prec)%Z then S754_finite sx m' e'
      else S754_infinity sx
  | Zneg _ => S754_nan
  end.

(** ** Substrings and the tokens of a name *)

(** [w] occurs in [s] as a block of consecutive characters. *)
Definition substring (w s : jsstring) : Prop := ∃ p q, s = p ++ w ++ q.

(** The string [x] of [sanitizeName] after lines 141-146, which line 148
    splits into tokens. *)
Definition cleaned `{Runtime} (s : jsval) : jsstring :=
  trim (replace_runs is_space
          (replace_runs is_punct (toLowerCase (stripDiacritics (String_of s))))).

(** The tokens before the stripping loops. *)
Definition name_tokens `{Runtime} (s : jsval) : list jsstring :=
  filter_Boolean (split_char SPACE (cleaned s)).

(** A character that can occur in a token of a name: neither punctuation
    of the class of line 144 nor white space. *)
Definition token_unit (c : codeunit) : Prop := is_punct c = false ∧ is_space c = false.

(** ** Tokens, said without the split *)

(** [toks] are the tokens of [s]: its maximal blocks of characters other
    than the space U+0020, in their order. A block is not empty, holds no
    space, and is followed by a space or by the end of the string. *)
Inductive tokens_of : jsstring → list jsstring → Prop :=
  | tokens_end : tokens_of [] []
  | tokens_space s toks : tokens_of s toks → tokens_of (32%N :: s) toks
  | tokens_block t s toks :
      t ≠ [] → Forall (λ c, c ≠ 32%N) t → (s = [] ∨ head s = Some 32%N) →
      tokens_of s toks → tokens_of (t ++ s) (t :: toks).

(** The structural bonus of two token lists as the specification words
    it: 0 when either list is empty, otherwise 0.05 when the last tokens
    are equal character for character, plus 0.02 when the first characters
    of the first tokens are equal. *)
Definition bonus_of_tokens (aT bT : list jsstring) : number :=
  match aT, bT with
  | aFirst :: _, bFirst :: _ =>
      Num.add
        (if bool_decide (last aT = last bT) then Num.dec 5 2 else Num.zero)
        (if bool_decide (head aFirst = head bFirst) then Num.dec 2 2 else Num.zero)
  | _, _ => Num.zero
  end.

(** ** Plain text and normalization *)

(** A code unit of the combining diacritical marks block, U+0300 to
    U+036F. *)
Definition diacritical_mark (c : codeunit) : Prop := (768 ≤ c ≤ 879)%N.

(** Plain ASCII text: code units below U+0080. *)
Definition ascii_text (s : jsstring) : Prop := Forall (λ c, (c < 128)%N) s.

(** The law of Unicode normalization that the pass-through of plain text
    rests on: the characters of Basic Latin have no decomposition, so
    NFKD leaves ASCII text as it is. *)
Definition nfkd_keeps_ascii `{Runtime} : Prop :=
  ∀ s, ascii_text s → normalizeNFKD s = s.

(** * Properties *)

(** ** Strings *)

Lemma drop_while_nil {A} (p : A → bool) (l : list A) :
  drop_while p l = [] ↔ Forall (λ x, p x = true) l.
Proof.
  induction l as [|x l IH]; simpl.
  - split; [constructor|done].
  - destruct (p x) eqn:Hx.
    + rewrite IH. split; [by constructor|by inversion 1].
    + split; [done|]. inversion 1; congruence.
Qed.

Lemma drop_while_cons {A} (p : A → bool) (l : list A) x l' :
  drop_while p l = x :: l' → p x = false.
Proof.
  induction l as [|y l IH]; simpl; [done|].
  destruct (p y) eqn:Hy; [done|]. by intros [= <- _].
Qed.

Lemma drop_while_id {A} (p : A → bool) x (l : list A) :
  p x = false → drop_while p (x :: l) = x :: l.
Proof. simpl. by intros ->. Qed.

Lemma trim_nil_iff (s : jsstring) :
  trim s = [] ↔ Forall (λ c, is_space c = true) s.
Proof.
  unfold trim, trim_end, trim_start. split.
  - intros Hs. apply drop_while_nil.
    apply (f_equal reverse) in Hs. rewrite reverse_involutive in Hs.
    change (reverse []) with (@nil N) in Hs.
    apply drop_while_nil in Hs. rewrite Forall_reverse in Hs.
    destruct (drop_while is_space s) as [|c r] eqn:Hd; [done|].
    apply drop_while_cons in Hd. inversion Hs; congruence.
  - intros Hs. apply drop_while_nil in Hs. by rewrite Hs.
Qed.

Lemma is_space_spec (c : codeunit) :
  is_space c = true ↔
  (9 ≤ c ≤ 13 ∨ c = 32 ∨ c = 160 ∨ c = 5760 ∨ 8192 ≤ c ≤ 8202 ∨ c = 8232
   ∨ c = 8233 ∨ c = 8239 ∨ c = 8287 ∨ c = 12288 ∨ c = 65279)%N.
Proof.
  unfold is_space, in_range.
  rewrite !orb_true_iff, !andb_true_iff, !N.leb_le, !N.eqb_eq. tauto.
Qed.

Lemma Latin1_lower_unit_space (c : codeunit) :
  is_space (Latin1.lower_unit c) = true → is_space c = true.
Proof.
  rewrite !is_space_spec. unfold Latin1.lower_unit, in_range.
  destruct (N.leb_spec 65 c), (N.leb_spec c 90), (N.leb_spec 192 c),
    (N.leb_spec c 222), (N.eqb_spec c 215); simpl; lia.
Qed.

Lemma Latin1_lower_keeps_text (s : jsstring) :
  trim s ≠ [] → trim (Latin1.lower s) ≠ [].
Proof.
  intros Hs Hl. apply Hs. apply trim_nil_iff. apply trim_nil_iff in Hl.
  unfold Latin1.lower in Hl. apply Forall_fmap in Hl.
  eapply Forall_impl; [exact Hl|]. intros c. apply Latin1_lower_unit_space.
Qed.

#[global] Instance latin1_runtime : Runtime := {|
  toLowerCase := Latin1.lower;
  normalizeNFKD := Latin1.nfkd;
  toLowerCase_keeps_text := Latin1_lower_keeps_text
|}.

(** ** Splitting and joining *)

Lemma split_char_from_Forall (P : codeunit → Prop) sep cur s :
  Forall P cur → Forall P s →
  Forall (Forall P) (split_char_from sep cur s).
Proof.
  revert cur. induction s as [|c s IH]; intros cur Hcur Hs; simpl.
  - by repeat constructor.
  - inversion Hs as [|?? Hc Hs']; subst. destruct (c =? sep)%N.
    + constructor; [done|]. by apply IH.
    + apply IH; [|done]. apply Forall_app. by repeat constructor.
Qed.

Lemma split_char_from_no_sep sep cur s :
  Forall (λ c, c ≠ sep) cur →
  Forall (Forall (λ c, c ≠ sep)) (split_char_from sep cur s).
Proof.
  revert cur. induction s as [|c s IH]; intros cur Hcur; simpl.
  - by repeat constructor.
  - destruct (N.eqb_spec c sep).
    + constructor; [done|]. by apply IH.
    + apply IH. apply Forall_app. by repeat constructor.
Qed.

Lemma split_char_from_app sep cur p s :
  Forall (λ c, c ≠ sep) p →
  split_char_from sep cur (p ++ s) = split_char_from sep (cur ++ p) s.
Proof.
  revert cur. induction p as [|c p IH]; intros cur Hp; simpl.
  - by rewrite app_nil_r.
  - inversion Hp as [|?? Hc Hp']; subst.
    destruct (N.eqb_spec c sep); [done|].
    rewrite IH by done. by rewrite <- app_assoc.
Qed.

Lemma space_tokens_join (toks : list jsstring) :
  Forall (λ t, t ≠ [] ∧ Forall (λ c, c ≠ SPACE) t) toks →
  space_tokens (join SPACE toks) = toks.
Proof.
  unfold space_tokens, split_char.
  induction toks as [|t toks IH]; intros Htoks; [done|].
  inversion Htoks as [|?? [Ht1 Ht2] Htoks']; subst.
  destruct toks as [|u toks].
  - simpl. rewrite <- (app_nil_r t) at 1. rewrite split_char_from_app by done.
    simpl. unfold filter_Boolean. rewrite filter_cons_True; [done|]. by destruct t.
  - change (join SPACE (t :: u :: toks)) with (t ++ SPACE :: join SPACE (u :: toks)).
    rewrite split_char_from_app by done. simpl.
    unfold filter_Boolean. rewrite filter_cons_True by (by destruct t).
    f_equal. by apply IH.
Qed.

Lemma good_token_no_SPACE t : good_token t → t ≠ [] ∧ Forall (λ c, c ≠ SPACE) t.
Proof.
  intros [Ht Hc]. split; [done|]. eapply Forall_impl; [exact Hc|].
  intros c Hs ->. done.
Qed.

Lemma join_cons_cons sep t u toks :
  join sep (t :: u :: toks) = t ++ sep :: join sep (u :: toks).
Proof. done. Qed.

Lemma join_head toks :
  Forall good_token toks → head (join SPACE toks) = head toks ≫= head.
Proof.
  destruct toks as [|t toks]; [done|]. intros Htoks.
  inversion Htoks as [|?? [Ht _] _]; subst.
  destruct toks; destruct t; done.
Qed.

Lemma replace_runs_from_app cls b t r :
  Forall (λ c, cls c = false) t →
  replace_runs_from cls b (t ++ r)
  = t ++ replace_runs_from cls (match t with [] => b | _ => false end) r.
Proof.
  revert b. induction t as [|c t IH]; intros b Ht; [done|].
  inversion Ht as [|?? Hc Ht']; subst. simpl. rewrite Hc. f_equal.
  rewrite IH by done. by destruct t.
Qed.

Lemma replace_runs_join b toks :
  Forall good_token toks →
  replace_runs_from is_space b (join SPACE toks) = join SPACE toks.
Proof.
  revert b. induction toks as [|t toks IH]; intros b Htoks; [done|].
  inversion Htoks as [|?? [Ht1 Ht2] Htoks']; subst.
  destruct toks as [|u toks].
  - simpl. rewrite <- (app_nil_r t) at 1. rewrite replace_runs_from_app by done.
    simpl. by rewrite app_nil_r.
  - rewrite join_cons_cons, replace_runs_from_app by done.
    destruct t; [done|]. f_equal.
    change (replace_runs_from is_space false (SPACE :: ?r))
      with (SPACE :: replace_runs_from is_space true r).
    f_equal. by apply IH.
Qed.





Lemma join_last toks :
  Forall good_token toks → last (join SPACE toks) = last toks ≫= last.
Proof.
  induction toks as [|t toks IH]; intros Htoks; [done|].
  inversion Htoks as [|?? [Ht1 Ht2] Htoks']; subst.
  destruct toks as [|u toks]; [done|].
  rewrite join_cons_cons. 
  change (last (t :: u :: toks)) with (last (u :: toks)).
  rewrite <- IH by done.
  inversion Htoks' as [|?? [Hu1 Hu2] _]; subst.
  destruct (join SPACE (u :: toks)) as [|d r] eqn:E.
  { pose proof (join_head _ Htoks') as Hh. rewrite E in Hh. by destruct u. }
  by rewrite last_app_cons, last_cons_cons.
Qed.

Lemma trim_id s :
  from_option is_space false (head s) = false →
  from_option is_space false (last s) = false →
  trim s = s.
Proof.
  intros Hh Hl. unfold trim, trim_start, trim_end.
  assert (drop_while is_space s = s) as ->.
  { destruct s as [|c s]; [done|]. simpl in *. by rewrite Hh. }
  rewrite <- head_reverse in Hl.
  destruct (reverse s) as [|c r] eqn:E.
  - simpl. apply (f_equal reverse) in E. by rewrite reverse_involutive in E.
  - simpl in *. rewrite Hl, <- E. apply reverse_involutive.
Qed.

Lemma good_token_head t :
  good_token t → from_option is_space false (head t) = false.
Proof. intros [_ Ht]. destruct Ht; done. Qed.

Lemma good_token_last t :
  good_token t → from_option is_space false (last t) = false.
Proof.
  intros [_ Ht]. destruct (last t) as [c|] eqn:E; [|done].
  apply last_Some_elem_of in E. rewrite Forall_forall in Ht. by apply Ht.
Qed.

Lemma outer_space_join toks :
  Forall good_token toks → outer_space (join SPACE toks) = false.
Proof.
  intros Htoks. unfold outer_space.
  rewrite join_head, join_last by done. apply orb_false_intro.
  - destruct toks as [|t toks]; [done|]. simpl.
    inversion Htoks; subst. by apply good_token_head.
  - destruct (last toks) as [t|] eqn:E; [|done]. simpl.
    apply good_token_last. apply last_Some_elem_of in E.
    rewrite Forall_forall in Htoks. by apply Htoks.
Qed.

Lemma sanitize_join toks :
  Forall good_token toks →
  trim (replace_runs is_space (join SPACE toks)) = join SPACE toks.
Proof.
  intros Htoks. unfold replace_runs. rewrite replace_runs_join by done.
  pose proof (outer_space_join _ Htoks) as Ho. unfold outer_space in Ho.
  apply orb_false_elim in Ho as [? ?]. by apply trim_id.
Qed.

(** ** Loops and tables *)

(** A [for] loop over [start, start + len) keeps an invariant that each of
    its turns keeps. *)
Lemma foldl_seq_invariant {S} (Inv : nat → S → Prop) (f : S → nat → S) start len s0 :
  Inv start s0 →
  (∀ k s, start ≤ k < start + len → Inv k s → Inv (k + 1) (f s k)) →
  Inv (start + len) (foldl f s0 (seq start len)).
Proof.
  induction len as [|len IH]; intros H0 Hstep.
  - by rewrite Nat.add_0_r.
  - rewrite seq_S, foldl_snoc.
    replace (start + Datatypes.S len) with (start + len + 1) by lia.
    apply Hstep; [lia|]. apply IH; [done|].
    intros k s Hk. apply Hstep. lia.
Qed.

Section Tables.
Context {A : Type}.
Implicit Types (t : list (list A)) (v d : A).

Lemma rd_cell d t r c : rd d t r c = default d (cell t r c).
Proof. done. Qed.

Lemma wr_dims t rows cols r c v : dims t rows cols → dims (wr t r c v) rows cols.
Proof.
  intros [Hl Hr]. split; [by unfold wr; rewrite length_alter|].
  apply Forall_forall. intros row Hrow.
  apply list_elem_of_lookup in Hrow as [k Hk]. unfold wr in Hk.
  rewrite Forall_forall in Hr.
  destruct (decide (r = k)) as [->|Hne].
  - rewrite list_lookup_alter_eq in Hk.
    destruct (t !! k) as [row'|] eqn:E; [|done]. simpl in Hk. injection Hk as <-.
    rewrite length_insert. apply Hr. by eapply list_elem_of_lookup_2.
  - rewrite list_lookup_alter_ne in Hk by done.
    apply Hr. by eapply list_elem_of_lookup_2.
Qed.

Lemma cell_wr_eq t rows cols r c v :
  dims t rows cols → r < rows → c < cols → cell (wr t r c v) r c = Some v.
Proof.
  intros [Hl Hr] Hlt Hc. unfold cell, wr. rewrite list_lookup_alter_eq.
  destruct (t !! r) as [row|] eqn:E.
  - simpl. apply list_lookup_insert_eq.
    rewrite Forall_forall in Hr. rewrite (Hr row); [done|].
    by eapply list_elem_of_lookup_2.
  - apply lookup_ge_None in E. lia.
Qed.

Lemma cell_wr_ne t r c v r' c' :
  (r, c) ≠ (r', c') → cell (wr t r c v) r' c' = cell t r' c'.
Proof.
  intros Hne. unfold cell, wr.
  destruct (decide (r = r')) as [->|Hr].
  - rewrite list_lookup_alter_eq. destruct (t !! r') as [row|]; [|done]. simpl.
    apply list_lookup_insert_ne. congruence.
  - by rewrite list_lookup_alter_ne.
Qed.

Lemma replicate_dims rows cols v : dims (replicate rows (replicate cols v)) rows cols.
Proof.
  split; [apply length_replicate|]. apply Forall_forall.
  intros row ->%elem_of_replicate_inv. apply length_replicate.
Qed.

Lemma cell_replicate rows cols v r c :
  r < rows → c < cols → cell (replicate rows (replicate cols v)) r c = Some v.
Proof.
  intros Hr Hc. unfold cell. rewrite lookup_replicate_2 by done. simpl.
  by apply lookup_replicate_2.
Qed.

End Tables.

(** ** Numbers: signs *)

Lemma binary_round_aux_sign sx mx ex lx :
  match binary_round_aux Num.prec Num.emax sx mx ex lx with
  | S754_zero s | S754_infinity s | S754_finite s _ _ => s = sx
  | S754_nan => True
  end.
Proof.
  unfold binary_round_aux.
  destruct (shr_fexp _ _ mx ex lx) as [mrs' e'].
  destruct (shr_fexp _ _ _ e' loc_Exact) as [mrs'' e''].
  destruct (shr_m mrs''); [done| |done]. by destruct (_ <=? _)%Z.
Qed.

Lemma binary_round_not_negative mx ex :
  not_negative (binary_round Num.prec Num.emax false mx ex).
Proof.
  unfold binary_round. destruct (shl_align _ _ _) as [mz ez].
  pose proof (binary_round_aux_sign false (Z.pos mz) ez loc_Exact) as Hs.
  destruct (binary_round_aux _ _ _ _ _ _); by subst.
Qed.

Lemma add_not_negative x y :
  not_negative x → not_negative y → not_negative (Num.add x y).
Proof.
  destruct x as [[]|[]| |[] mx ex], y as [[]|[]| |[] my ey]; try done.
  intros _ _. unfold Num.add, SFadd.
  destruct (shl_align mx ex _) as [a ?], (shl_align my ey _) as [b ?].
  apply binary_round_not_negative.
Qed.

Lemma max_zero_not_negative x : not_negative (Num.max Num.zero x).
Proof. by destruct x as [[]|[]| |[] mx ex]. Qed.

Lemma max_zero_id x : not_negative x → Num.max Num.zero x = x.
Proof. by destruct x as [[]|[]| |[] mx ex]. Qed.

Lemma min_one_not_negative x : not_negative x → not_negative (Num.min Num.one x).
Proof.
  destruct x as [[]|[]| |[] mx ex]; try done. intros _.
  unfold Num.min. destruct (SFcompare Num.one _) as [[]|]; done.
Qed.

Local Open Scope Z_scope.

(** ** Numbers: digits and shifts *)

Lemma fexp_eq e : fexp Num.prec Num.emax e = Z.max (e - 53) emin.
Proof. done. Qed.

Lemma digits2_pos_bounds p :
  2 ^ (Z.pos (digits2_pos p) - 1) ≤ Z.pos p < 2 ^ Z.pos (digits2_pos p).
Proof.
  induction p as [p IH|p IH|]; simpl digits2_pos; [| |by compute].
  - rewrite Pos2Z.inj_succ, Z.pow_succ_r by lia.
    replace (Z.succ (Z.pos (digits2_pos p)) - 1) with (Z.succ (Z.pos (digits2_pos p) - 1)) by lia.
    rewrite Z.pow_succ_r by lia. lia.
  - rewrite Pos2Z.inj_succ, Z.pow_succ_r by lia.
    replace (Z.succ (Z.pos (digits2_pos p)) - 1) with (Z.succ (Z.pos (digits2_pos p) - 1)) by lia.
    rewrite Z.pow_succ_r by lia. lia.
Qed.

Lemma Zdigits2_bounds m :
  0 < m → 2 ^ (Zdigits2 m - 1) ≤ m < 2 ^ Zdigits2 m.
Proof. destruct m as [|p|p]; [lia| |lia]. intros _. apply digits2_pos_bounds. Qed.

Lemma Zdigits2_pos m : 0 < m → 0 < Zdigits2 m.
Proof. destruct m; simpl; lia. Qed.

Lemma Zdigits2_le m n : 0 < m → 0 ≤ n → m < 2 ^ n → Zdigits2 m ≤ n.
Proof.
  intros Hm Hn Hlt. pose proof (Zdigits2_bounds m Hm) as [Hlo _].
  pose proof (Zdigits2_pos m Hm).
  destruct (Z.le_gt_cases (Zdigits2 m) n) as [|Hgt]; [done|].
  assert (2 ^ n ≤ 2 ^ (Zdigits2 m - 1)) by (apply Z.pow_le_mono_r; lia). lia.
Qed.

Lemma Zdigits2_ge m n : 0 < m → 2 ^ n ≤ m → n + 1 ≤ Zdigits2 m.
Proof.
  intros Hm Hle. pose proof (Zdigits2_bounds m Hm) as [_ Hhi].
  pose proof (Zdigits2_pos m Hm).
  destruct (Z.le_gt_cases (n + 1) (Zdigits2 m)) as [|Hgt]; [done|].
  assert (2 ^ Zdigits2 m ≤ 2 ^ n) by (apply Z.pow_le_mono_r; lia). lia.
Qed.

Lemma shr_1_m mrs : 0 ≤ shr_m mrs → shr_m (shr_1 mrs) = shr_m mrs / 2.
Proof.
  destruct mrs as [m r s]. cbn [shr_m]. intros Hm.
  destruct m as [|[p|p|]|p]; cbn [shr_1 shr_m]; try done; try lia.
  - apply (Z.div_unique _ 2 _ 1); lia.
  - apply (Z.div_unique _ 2 _ 0); lia.
Qed.

Lemma iter_pos_shr_1_m p mrs :
  0 ≤ shr_m mrs → shr_m (SpecFloat.iter_pos shr_1 p mrs) = shr_m mrs / 2 ^ Z.pos p.
Proof.
  revert mrs. induction p as [p IH|p IH|]; intros mrs Hm; simpl SpecFloat.iter_pos.
  - assert (0 ≤ shr_m (shr_1 mrs)) as H1.
    { rewrite shr_1_m by done. apply Z.div_pos; lia. }
    assert (0 ≤ shr_m (SpecFloat.iter_pos shr_1 p (shr_1 mrs))) as H2.
    { rewrite IH by done. apply Z.div_pos; lia. }
    rewrite IH, IH, shr_1_m by done.
    rewrite !Z.div_div by lia. f_equal.
    rewrite Pos2Z.inj_xI, Z.pow_add_r, Z.pow_mul_r, Z.pow_2_r by lia.
    change (2 ^ 2) with 4. change (2 ^ 1) with 2. rewrite <- Z.pow_mul_l. lia.
  - assert (0 ≤ shr_m (SpecFloat.iter_pos shr_1 p mrs)) as H2.
    { rewrite IH by done. apply Z.div_pos; lia. }
    rewrite IH, IH by done. rewrite !Z.div_div by lia. f_equal.
    rewrite Pos2Z.inj_xO. rewrite <- Z.pow_add_r by lia. f_equal. lia.
  - rewrite shr_1_m by done. done.
Qed.

(** Shifting the mantissa [m] to the exponent [fexp (digits m + e)]. *)
Lemma shr_fexp_m m e l :
  0 ≤ m →
  let k := fexp Num.prec Num.emax (Zdigits2 m + e) - e in
  let '(mrs, e') := shr_fexp Num.prec Num.emax m e l in
  shr_m mrs = m / 2 ^ Z.max k 0 ∧ e' = e + Z.max k 0.
Proof.
  intros Hm k. unfold shr_fexp. fold k. unfold shr.
  assert (shr_m (shr_record_of_loc m l) = m) as Hr by (by destruct l as [|[]]).
  destruct k as [|p|p].
  - simpl. rewrite Hr, Z.div_1_r. lia.
  - rewrite iter_pos_shr_1_m by lia. rewrite Hr. split; [|lia].
    f_equal.
  - simpl. rewrite Hr, Z.div_1_r. lia.
Qed.

Lemma round_nearest_even_cases m l :
  round_nearest_even m l = m ∨ round_nearest_even m l = m + 1.
Proof. destruct l as [|[]]; simpl; try destruct (Z.even m); auto. Qed.

Lemma binary_round_aux_finish sx mx ex lx :
  0 ≤ mx →
  let k := Z.max (fexp Num.prec Num.emax (Zdigits2 mx + ex) - ex) 0 in
  ∃ m2, (m2 = mx / 2 ^ k ∨ m2 = mx / 2 ^ k + 1)
        ∧ binary_round_aux Num.prec Num.emax sx mx ex lx = finish sx m2 (ex + k).
Proof.
  intros Hm k. unfold binary_round_aux, finish.
  pose proof (shr_fexp_m mx ex lx Hm) as Hs. simpl in Hs. fold k in Hs.
  destruct (shr_fexp _ _ mx ex lx) as [mrs' e']. destruct Hs as [Hm' ->].
  exists (round_nearest_even (shr_m mrs') (loc_of_shr_record mrs')).
  split; [|done]. rewrite <- Hm'. apply round_nearest_even_cases.
Qed.

Lemma binary_round_aux_exact sx mx ex :
  fexp Num.prec Num.emax (Zdigits2 mx + ex) ≤ ex →
  binary_round_aux Num.prec Num.emax sx mx ex loc_Exact = finish sx mx ex.
Proof.
  intros Hk. unfold binary_round_aux, finish. unfold shr_fexp at 1. unfold shr.
  destruct (fexp _ _ _ - ex) as [|p|p] eqn:E; [done|lia|done].
Qed.

Ltac flia := unfold emin, Num.emax, Num.prec in *; lia.

Lemma pow2_pos n : 0 ≤ n → 0 < 2 ^ n.
Proof. intros. apply Z.pow_pos_nonneg; lia. Qed.

Lemma Zdigits2_pow53 : Zdigits2 (2 ^ 53) = 54.
Proof. done. Qed.

(** What [finish] returns for a mantissa of at most 53 bits, or [2^53]. *)
Lemma finish_cases m e :
  0 ≤ m ≤ 2 ^ 53 → emin ≤ e →
  (m = 0 ∧ finish false m e = S754_zero false)
  ∨ (∃ p, m = Z.pos p ∧ m < 2 ^ 53
          ∧ finish false m e
            = if e <=? 971 then S754_finite false p e else S754_infinity false)
  ∨ (m = 2 ^ 53
     ∧ finish false m e
       = if e + 1 <=? 971 then S754_finite false (2 ^ 52) (e + 1)
         else S754_infinity false).
Proof.
  intros [Hm0 Hm] He. unfold finish, shr_fexp, shr. rewrite fexp_eq.
  destruct (Z.eq_dec m 0) as [->|Hne].
  { left. split; [done|]. simpl Zdigits2.
    destruct (Z.max _ _ - e) as [|p|p] eqn:E; [done|unfold emin in *; lia|done]. }
  destruct (Z.eq_dec m (2 ^ 53)) as [->|Hne'].
  { right. right. split; [done|]. rewrite Zdigits2_pow53.
    destruct (Z.max _ _ - e) as [|p|p] eqn:E; [unfold emin in *; lia| |unfold emin in *; lia].
    assert (p = 1%positive) as -> by (unfold emin in *; lia).
    replace (e + 1) with (e + 1) by lia. done. }
  right. left. destruct m as [|p|p]; [done| |lia].
  exists p. split; [done|]. split; [lia|].
  assert (Zdigits2 (Z.pos p) ≤ 53) as Hd by (apply Zdigits2_le; lia).
  destruct (Z.max _ _ - e) as [|q|q] eqn:E; [done|unfold emin in *; lia|done].
Qed.

Lemma finish_nonneg m e : 0 ≤ m → nonneg_num (finish false m e).
Proof.
  intros Hm. unfold finish.
  pose proof (shr_fexp_m m e loc_Exact Hm) as Hs. simpl in Hs.
  destruct (shr_fexp _ _ m e loc_Exact) as [mrs e']. destruct Hs as [Hm' _].
  assert (0 ≤ shr_m mrs) as Hge.
  { rewrite Hm'. apply Z.div_pos; [done|]. apply pow2_pos. lia. }
  destruct (shr_m mrs); [done| |lia]. by destruct (_ <=? _).
Qed.

Lemma val_finite p e : val (S754_finite false p e) = Z.pos p * 2 ^ (e - emin).
Proof. done. Qed.

(** Without overflow the value is kept. *)
Lemma finish_val m e :
  0 ≤ m ≤ 2 ^ 53 → emin ≤ e → e < 971 →
  val (finish false m e) = m * 2 ^ (e - emin).
Proof.
  intros Hm He Ho.
  destruct (finish_cases m e Hm He) as [[-> ->]|[(p & -> & _ & ->)|[-> ->]]].
  - done.
  - by rewrite (proj2 (Z.leb_le e 971)) by lia.
  - rewrite (proj2 (Z.leb_le (e + 1) 971)) by lia. rewrite val_finite.
    replace (e + 1 - emin) with (Z.succ (e - emin)) by lia.
    rewrite Z.pow_succ_r by lia. change (Z.pos (2 ^ 52)) with (2 ^ 52). 
    change (2 ^ 53) with (2 * 2 ^ 52). lia.
Qed.

Lemma val_fine_lt x : fine x → val x < 2 ^ (1024 - emin).
Proof.
  destruct x as [[]|[]| |[] p e]; try done.
  unfold fine, bounded, canonical_mantissa. rewrite fexp_eq.
  intros [Hc He%Z.leb_le]%andb_true_iff. apply Z.eqb_eq in Hc.
  rewrite val_finite. pose proof (digits2_pos_bounds p) as [_ Hp].
  assert (Z.pos (digits2_pos p) ≤ 53) by lia.
  assert (2 ^ Z.pos (digits2_pos p) ≤ 2 ^ 53) by (apply Z.pow_le_mono_r; lia).
  assert (emin ≤ e) by lia.
  assert (2 ^ (e - emin) ≤ 2 ^ (971 - emin)) by (apply Z.pow_le_mono_r; flia).
  pose proof (pow2_pos (e - emin)).
  replace (1024 - emin) with (53 + (971 - emin)) by lia.
  rewrite Z.pow_add_r by flia. nia.
Qed.

(** A mantissa in canonical position gives a canonical result. *)
Lemma finish_fine m e :
  0 ≤ m ≤ 2 ^ 53 → emin ≤ e → (m < 2 ^ 52 → e = emin) →
  (fine (finish false m e) ∧ val (finish false m e) = m * 2 ^ (e - emin))
  ∨ (finish false m e = S754_infinity false ∧ 2 ^ (1024 - emin) ≤ m * 2 ^ (e - emin)).
Proof.
  intros Hm He Hc.
  destruct (finish_cases m e Hm He) as [[-> ->]|[(p & -> & Hp & ->)|[-> ->]]].
  - by left.
  - destruct (Z.leb_spec e 971) as [Hle|Hgt].
    + left. split; [|done]. unfold fine, bounded, canonical_mantissa.
      rewrite fexp_eq. apply andb_true_iff. split; [|by apply Z.leb_le].
      apply Z.eqb_eq.
      assert (Z.pos (digits2_pos p) ≤ 53) by (apply (Zdigits2_le (Z.pos p)); lia).
      destruct (Z.lt_ge_cases (Z.pos p) (2 ^ 52)) as [Hlt|Hge]; [rewrite (Hc Hlt); lia|].
      pose proof (Zdigits2_ge (Z.pos p) 52 ltac:(lia) Hge). simpl Zdigits2 in *. lia.
    + right. split; [done|].
      destruct (Z.lt_ge_cases (Z.pos p) (2 ^ 52)) as [Hlt|Hge];
        [specialize (Hc Hlt); unfold emin in *; lia|].
      replace (1024 - emin) with (52 + (972 - emin)) by lia.
      rewrite Z.pow_add_r by (unfold emin; lia).
      assert (2 ^ (972 - emin) ≤ 2 ^ (e - emin)) by (apply Z.pow_le_mono_r; unfold emin; lia).
      pose proof (pow2_pos (972 - emin)). nia.
  - destruct (Z.leb_spec (e + 1) 971) as [Hle|Hgt].
    + left. split.
      * unfold fine, bounded, canonical_mantissa. rewrite fexp_eq.
        apply andb_true_iff. split; [|by apply Z.leb_le]. apply Z.eqb_eq.
        change (Z.pos (digits2_pos (2 ^ 52))) with 53. lia.
      * rewrite val_finite. replace (e + 1 - emin) with (Z.succ (e - emin)) by lia.
        rewrite Z.pow_succ_r by lia. change (Z.pos (2 ^ 52)) with (2 ^ 52).
        change (2 ^ 53) with (2 * 2 ^ 52). lia.
    + right. split; [done|].
      replace (1024 - emin) with (53 + (971 - emin)) by lia.
      rewrite Z.pow_add_r by (unfold emin; lia).
      assert (2 ^ (971 - emin) ≤ 2 ^ (e - emin)) by (apply Z.pow_le_mono_r; unfold emin; lia).
      pose proof (pow2_pos (971 - emin)). nia.
Qed.

(** ** Numbers: canonical forms and order *)

Lemma fine_finite p e :
  fine (S754_finite false p e) ↔
  emin ≤ e ≤ 971 ∧ Z.pos p < 2 ^ 53 ∧ (emin < e → 2 ^ 52 ≤ Z.pos p).
Proof.
  unfold fine, bounded, canonical_mantissa. rewrite fexp_eq.
  rewrite andb_true_iff, Z.eqb_eq, Z.leb_le.
  pose proof (digits2_pos_bounds p) as [Hlo Hhi].
  split.
  - intros [Hc He]. split; [flia|].
    assert (Z.pos (digits2_pos p) ≤ 53) as Hd by lia. split.
    + assert (2 ^ Z.pos (digits2_pos p) ≤ 2 ^ 53) by (apply Z.pow_le_mono_r; lia). lia.
    + intros Hgt. assert (Z.pos (digits2_pos p) = 53) as Hd' by lia.
      by rewrite Hd' in Hlo.
  - intros ([He1 He2] & Hp & Hn). split; [|flia].
    assert (Z.pos (digits2_pos p) ≤ 53) as Hd by (apply (Zdigits2_le (Z.pos p)); lia).
    destruct (Z.eq_dec e emin) as [->|Hne]; [lia|].
    pose proof (Zdigits2_ge (Z.pos p) 52 ltac:(lia) (Hn ltac:(lia))).
    simpl Zdigits2 in *. lia.
Qed.

Lemma val_nonneg x : 0 ≤ val x.
Proof.
  destruct x as [[]|[]| |[] p e]; simpl; lia.
Qed.

Lemma val_finite_pos p e : emin ≤ e → 0 < val (S754_finite false p e).
Proof. intros He. rewrite val_finite. pose proof (pow2_pos (e - emin)). nia. Qed.

Lemma pow2_split a b : 0 ≤ a → 0 ≤ b → 2 ^ (a + b) = 2 ^ a * 2 ^ b.
Proof. intros. by rewrite Z.pow_add_r. Qed.

(** On numbers in canonical form the order is that of the values. *)
Lemma val_lt_exponent p1 e1 p2 e2 :
  fine (S754_finite false p1 e1) → fine (S754_finite false p2 e2) → e1 < e2 →
  val (S754_finite false p1 e1) < val (S754_finite false p2 e2).
Proof.
  rewrite !fine_finite, !val_finite. intros (He1 & Hp1 & _) (He2 & _ & Hn2) Hlt.
  specialize (Hn2 ltac:(lia)).
  replace (e2 - emin) with ((e2 - e1 - 1) + 1 + (e1 - emin)) by lia.
  rewrite !pow2_split by lia. change (2 ^ 1) with 2.
  pose proof (pow2_pos (e1 - emin)). pose proof (pow2_pos (e2 - e1 - 1)).
  change (2 ^ 53) with (2 * 2 ^ 52) in Hp1.
  assert (Z.pos p1 * 2 ^ (e1 - emin) < 2 * 2 ^ 52 * 2 ^ (e1 - emin)) by nia.
  assert (2 ^ 52 * 2 ^ (e1 - emin) ≤ Z.pos p2 * 2 ^ (e1 - emin)) by nia.
  nia.
Qed.

Lemma compare_val x y :
  fine x → fine y → SFcompare x y = Some (val x ?= val y).
Proof.
  destruct x as [[]|[]| |[] p1 e1], y as [[]|[]| |[] p2 e2]; try done;
    intros Hx Hy.
  - simpl SFcompare. pose proof (proj1 (fine_finite _ _) Hy) as (? & _).
    pose proof (val_finite_pos p2 e2 ltac:(lia)) as Hp. simpl val at 1.
    by rewrite (proj2 (Z.compare_lt_iff _ _) Hp).
  - simpl SFcompare. pose proof (proj1 (fine_finite _ _) Hx) as (? & _).
    pose proof (val_finite_pos p1 e1 ltac:(lia)) as Hp. simpl val at 2.
    by rewrite (proj2 (Z.compare_gt_iff _ _) Hp).
  - cbn [SFcompare]. destruct (Z.compare_spec e1 e2) as [->|Hlt|Hgt].
    + rewrite !val_finite. pose proof (proj1 (fine_finite _ _) Hx) as (? & _).
      pose proof (pow2_pos (e2 - emin) ltac:(lia)).
      rewrite <- Zmult_compare_compat_r by lia. done.
    + pose proof (val_lt_exponent _ _ _ _ Hx Hy Hlt) as H.
      by rewrite (proj2 (Z.compare_lt_iff _ _) H).
    + pose proof (val_lt_exponent _ _ _ _ Hy Hx Hgt) as H.
      by rewrite (proj2 (Z.compare_gt_iff _ _) H).
Qed.

Lemma compare_val_good x y :
  good x → good y → SFcompare x y = Some (val x ?= val y).
Proof.
  intros [Hx| ->] [Hy| ->].
  - by apply compare_val.
  - pose proof (val_fine_lt x Hx) as H. simpl val at 2.
    rewrite (proj2 (Z.compare_lt_iff _ _) H). by destruct x as [[]|[]| |[] p e].
  - pose proof (val_fine_lt y Hy) as H. simpl val at 1.
    rewrite (proj2 (Z.compare_gt_iff _ _) H). by destruct y as [[]|[]| |[] p e].
  - done.
Qed.

(** ** Numbers: rounding to nearest *)

Lemma iter_xO_val m d : Z.pos (Pos.iter xO m d) = Z.pos m * 2 ^ Z.pos d.
Proof.
  induction d as [|d IH] using Pos.peano_ind.
  - simpl. lia.
  - rewrite Pos.iter_succ, Pos2Z.inj_xO, IH, Pos2Z.inj_succ, Z.pow_succ_r by lia. lia.
Qed.

Lemma iter_xO_digits m d :
  Z.pos (digits2_pos (Pos.iter xO m d)) = Z.pos (digits2_pos m) + Z.pos d.
Proof.
  induction d as [|d IH] using Pos.peano_ind.
  - simpl. lia.
  - rewrite Pos.iter_succ. simpl digits2_pos. rewrite Pos2Z.inj_succ, IH. lia.
Qed.

Lemma shl_align_spec mx ex ex' :
  let '(mz, ez) := shl_align mx ex ex' in
  ez = Z.min ex ex' ∧ Z.pos mz = Z.pos mx * 2 ^ (ex - ez)
  ∧ Z.pos (digits2_pos mz) + ez = Z.pos (digits2_pos mx) + ex.
Proof.
  unfold shl_align. destruct (ex' - ex) as [|d|d] eqn:E.
  - replace (ex - ex) with 0 by lia. split; [lia|]. split; lia.
  - replace (ex - ex) with 0 by lia. split; [lia|]. split; lia.
  - rewrite iter_xO_val, iter_xO_digits. replace (ex - ex') with (Z.pos d) by lia.
    split; [lia|]. split; lia.
Qed.

(** Dividing by [2^k] keeps the number of digits above [k]. *)
Lemma div_pow2_bounds m k d :
  0 ≤ k → 2 ^ (d - 1) ≤ m < 2 ^ d → k < d →
  2 ^ (d - 1 - k) ≤ m / 2 ^ k < 2 ^ (d - k).
Proof.
  intros Hk [Hlo Hhi] Hd. pose proof (pow2_pos k Hk). split.
  - apply Z.div_le_lower_bound; [lia|].
    rewrite <- Z.pow_add_r by lia. by replace (k + (d - 1 - k)) with (d - 1) by lia.
  - apply Z.div_lt_upper_bound; [lia|].
    rewrite <- Z.pow_add_r by lia. by replace (k + (d - k)) with d by lia.
Qed.

(** The mantissa that [binary_round_aux] hands to [finish] is in canonical
    position when the first shift is not to the left. *)
Lemma shifted_canonical m e m2 :
  0 < m →
  let k := fexp Num.prec Num.emax (Zdigits2 m + e) - e in
  0 ≤ k → (m2 = m / 2 ^ k ∨ m2 = m / 2 ^ k + 1) →
  0 ≤ m2 ≤ 2 ^ 53 ∧ emin ≤ e + k ∧ (m2 < 2 ^ 52 → e + k = emin).
Proof.
  intros Hm k Hk Hm2. pose proof (Zdigits2_bounds m Hm) as Hd.
  set (d := Zdigits2 m) in *. pose proof (Zdigits2_pos m Hm) as Hdpos. fold d in Hdpos.
  assert (e + k = Z.max (d + e - 53) emin) as HE by (unfold k; rewrite fexp_eq; lia).
  pose proof (pow2_pos k Hk).
  assert (0 ≤ m / 2 ^ k) by (apply Z.div_pos; lia).
  destruct (Z.lt_ge_cases k d) as [Hlt|Hge].
  - pose proof (div_pow2_bounds m k d Hk Hd Hlt) as [Hlo Hhi].
    assert (d - k ≤ 53) by lia.
    assert (2 ^ (d - k) ≤ 2 ^ 53) by (apply Z.pow_le_mono_r; lia).
    split; [lia|]. split; [lia|]. intros Hsmall.
    destruct (Z.eq_dec (e + k) emin) as [|Hne]; [done|].
    assert (d - 1 - k = 52) as Hdk by lia. rewrite Hdk in Hlo. lia.
  - assert (m / 2 ^ k = 0) as Hz.
    { apply Z.div_small. split; [lia|].
      assert (2 ^ d ≤ 2 ^ k) by (apply Z.pow_le_mono_r; lia). lia. }
    split; [lia|]. split; [lia|]. intros _. lia.
Qed.

(** A number in canonical form that is at most [m * 2^e] is at most the
    multiple of the result's unit below [m * 2^e]. *)
Lemma floor_above_fine x m e :
  fine x → 0 < m → emin ≤ e →
  let k := fexp Num.prec Num.emax (Zdigits2 m + e) - e in
  0 ≤ k →
  val x ≤ m * 2 ^ (e - emin) →
  val x ≤ m / 2 ^ k * 2 ^ (e + k - emin).
Proof.
  intros Hx Hm He k Hk Hle. pose proof (Zdigits2_bounds m Hm) as Hd.
  set (d := Zdigits2 m) in *. pose proof (Zdigits2_pos m Hm) as Hdpos. fold d in Hdpos.
  assert (e + k = Z.max (d + e - 53) emin) as HE by (unfold k; rewrite fexp_eq; lia).
  pose proof (pow2_pos k Hk). pose proof (pow2_pos (e - emin) ltac:(lia)).
  assert (0 ≤ m / 2 ^ k) by (apply Z.div_pos; lia).
  replace (e + k - emin) with (k + (e - emin)) by lia. rewrite pow2_split by lia.
  destruct x as [[]|[]| |[] p xe]; try done.
  { simpl val. nia. }
  pose proof (proj1 (fine_finite _ _) Hx) as (Hxe & Hp & Hn).
  rewrite val_finite in *.
  destruct (Z.le_gt_cases (e + k) xe) as [Hge|Hlt].
  - replace (xe - emin) with ((xe - (e + k)) + k + (e - emin)) in * by lia.
    rewrite !pow2_split in * by lia.
    pose proof (pow2_pos (xe - (e + k)) ltac:(lia)).
    assert (Z.pos p * 2 ^ (xe - (e + k)) ≤ m / 2 ^ k) as Hq.
    { apply Z.div_le_lower_bound; [lia|]. nia. }
    assert (Z.pos p * 2 ^ (xe - (e + k)) * (2 ^ k * 2 ^ (e - emin))
            ≤ m / 2 ^ k * (2 ^ k * 2 ^ (e - emin)))
      by (apply Z.mul_le_mono_nonneg_r; [nia|done]).
    lia.
  - assert (k < d) by lia.
    pose proof (div_pow2_bounds m k d Hk Hd ltac:(lia)) as [Hlo _].
    replace (d - 1 - k) with 52 in Hlo by lia.
    pose proof (pow2_pos (e + k - xe - 1) ltac:(lia)).
    pose proof (pow2_pos (xe - emin) ltac:(lia)).
    assert (2 ^ k * 2 ^ (e - emin) = 2 ^ (e + k - xe - 1) * (2 * 2 ^ (xe - emin))) as ->.
    { rewrite <- (Z.pow_succ_r 2 (xe - emin)) by lia.
      rewrite <- !pow2_split by lia. f_equal. lia. }
    change (2 ^ 53) with (2 * 2 ^ 52) in Hp.
    assert (Z.pos p * 2 ^ (xe - emin) < 2 * 2 ^ 52 * 2 ^ (xe - emin)) by nia.
    assert (2 ^ 52 * 2 ^ (xe - emin) ≤ m / 2 ^ k * 2 ^ (xe - emin)) by nia.
    assert (m / 2 ^ k * 2 ^ (xe - emin) * 1
            ≤ m / 2 ^ k * 2 ^ (xe - emin) * 2 ^ (e + k - xe - 1))
      by (apply Z.mul_le_mono_nonneg_l; lia).
    lia.
Qed.

Lemma val_good_le x : good x → val x ≤ 2 ^ (1024 - emin).
Proof. intros [Hx%val_fine_lt| ->]; [lia|done]. Qed.

(** [binary_round_aux] on a positive mantissa that is not shifted to the
    left: the result is in canonical form (or infinite) and lies between
    the two multiples of its unit around [m * 2^e]. *)
Lemma round_aux_good m e l :
  0 < m →
  let k := fexp Num.prec Num.emax (Zdigits2 m + e) - e in
  0 ≤ k →
  let r := binary_round_aux Num.prec Num.emax false m e l in
  good r
  ∧ val r ≤ (m / 2 ^ k + 1) * 2 ^ (e + k - emin)
  ∧ (emin ≤ e → ∀ x, fine x → val x ≤ m * 2 ^ (e - emin) → val x ≤ val r).
Proof.
  intros Hm k Hk r.
  destruct (binary_round_aux_finish false m e l ltac:(lia)) as (m2 & Hm2 & Hr).
  fold k in Hm2, Hr. rewrite Z.max_l in Hm2, Hr by done.
  pose proof (shifted_canonical m e m2 Hm Hk Hm2) as (Hb & HE & Hc).
  fold r in Hr.
  pose proof (pow2_pos (e + k - emin) ltac:(lia)).
  assert (m2 * 2 ^ (e + k - emin) ≤ (m / 2 ^ k + 1) * 2 ^ (e + k - emin))
    by (apply Z.mul_le_mono_nonneg_r; lia).
  destruct (finish_fine m2 (e + k) Hb HE Hc) as [[Hf Hv]|[Hi Hv]];
    rewrite <- Hr in *.
  - split; [by left|]. split; [lia|].
    intros He x Hx Hle. rewrite Hv.
    pose proof (floor_above_fine x m e Hx Hm He Hk Hle) as Hfl. fold k in Hfl.
    assert (m / 2 ^ k * 2 ^ (e + k - emin) ≤ m2 * 2 ^ (e + k - emin))
      by (apply Z.mul_le_mono_nonneg_r; lia).
    lia.
  - split; [by right|]. rewrite Hi. simpl val. split; [lia|].
    intros He x Hx Hle. pose proof (val_fine_lt x Hx). lia.
Qed.

Lemma binary_round_good mx ex :
  emin ≤ ex →
  let r := binary_round Num.prec Num.emax false mx ex in
  good r ∧ ∀ x, fine x → val x ≤ Z.pos mx * 2 ^ (ex - emin) → val x ≤ val r.
Proof.
  intros He r. unfold r, binary_round.
  pose proof (shl_align_spec mx ex (fexp Num.prec Num.emax (Z.pos (digits2_pos mx) + ex)))
    as Hs.
  destruct (shl_align _ _ _) as [mz ez]. destruct Hs as (Hez & Hmz & Hd).
  assert (emin ≤ ez) as Hez' by (rewrite fexp_eq in Hez; lia).
  assert (0 ≤ fexp Num.prec Num.emax (Zdigits2 (Z.pos mz) + ez) - ez) as Hk.
  { simpl Zdigits2. rewrite Hd. lia. }
  destruct (round_aux_good (Z.pos mz) ez loc_Exact ltac:(lia) Hk) as (Hg & _ & Hlow).
  split; [done|]. intros x Hx Hle. apply Hlow; [done..|].
  rewrite Hmz, <- Z.mul_assoc, <- pow2_split by lia.
  by replace (ex - ez + (ez - emin)) with (ex - emin) by lia.
Qed.

Lemma align_val mx ex ez :
  emin ≤ ez ≤ ex →
  Z.pos (shl_align mx ex ez).1 * 2 ^ (ez - emin) = Z.pos mx * 2 ^ (ex - emin).
Proof.
  intros He. pose proof (shl_align_spec mx ex ez) as Hs.
  destruct (shl_align mx ex ez) as [mz ez']. destruct Hs as (Hez & Hmz & _).
  simpl. rewrite Hmz, Z.min_r in * by lia. subst ez'.
  rewrite <- Z.mul_assoc, <- pow2_split by lia. f_equal. f_equal. lia.
Qed.

Lemma fine_emin p e : fine (S754_finite false p e) → emin ≤ e.
Proof. rewrite fine_finite. lia. Qed.

(** Addition of numbers that are not negative rounds the exact sum and so
    returns at least either of them. *)
Lemma add_good x y :
  good x → good y →
  good (Num.add x y) ∧ val x ≤ val (Num.add x y) ∧ val y ≤ val (Num.add x y).
Proof.
  intros Hx Hy.
  pose proof (val_good_le x Hx). pose proof (val_good_le y Hy).
  destruct Hx as [Hx| ->], Hy as [Hy| ->];
    [|destruct x as [[]|[]| |[] mx ex]; try done; (split; [by right|done])
     |destruct y as [[]|[]| |[] my ey]; try done; (split; [by right|done])
     |split; [by right|done]].
  destruct x as [[]|[]| |[] mx ex], y as [[]|[]| |[] my ey]; try done.
  - split; [by left|]. simpl. lia.
  - split; [by left|]. pose proof (val_nonneg (S754_finite false my ey)). simpl in *. lia.
  - split; [by left|]. pose proof (val_nonneg (S754_finite false mx ex)). simpl in *. lia.
  - pose proof (fine_emin _ _ Hx). pose proof (fine_emin _ _ Hy).
    unfold Num.add, SFadd. set (ez := Z.min ex ey).
    pose proof (align_val mx ex ez ltac:(lia)) as Hax.
    pose proof (align_val my ey ez ltac:(lia)) as Hay.
    cbn [cond_Zopp].
    change (Z.pos ?a + Z.pos ?b) with (Z.pos (a + b)). cbn [binary_normalize].
    set (s := (_ + _)%positive).
    destruct (binary_round_good s ez ltac:(lia)) as [Hg Hlow].
    assert (Z.pos s * 2 ^ (ez - emin)
            = val (S754_finite false mx ex) + val (S754_finite false my ey)) as Hs.
    { unfold s. rewrite Pos2Z.inj_add, Z.mul_add_distr_r, Hax, Hay. done. }
    split; [done|]. split; apply Hlow; try done; rewrite Hs.
    + pose proof (val_nonneg (S754_finite false my ey)). lia.
    + pose proof (val_nonneg (S754_finite false mx ex)). lia.
Qed.

(** ** Numbers: the operations of [compareStrings] *)

(** Multiplication of numbers in canonical form. *)
Lemma mul_fine_good x y :
  fine x → fine y → good (Num.mul x y).
Proof.
  destruct x as [[]|[]| |[] mx ex], y as [[]|[]| |[] my ey]; try done;
    intros Hx Hy; try (by left).
  unfold Num.mul, SFmul. cbn [xorb].
  pose proof (proj1 (fine_finite _ _) Hx) as (Hex & Hmx & Hnx).
  pose proof (proj1 (fine_finite _ _) Hy) as (Hey & Hmy & Hny).
  apply round_aux_good; [lia|]. rewrite fexp_eq.
  destruct (Z.eq_dec ex emin) as [->|Hx'], (Z.eq_dec ey emin) as [->|Hy']; [flia|..].
  all: assert (2 ^ 52 ≤ Z.pos (mx * my)) as Hge by (rewrite Pos2Z.inj_mul; nia).
  all: pose proof (Zdigits2_ge (Z.pos (mx * my)) 52 ltac:(lia) Hge); lia.
Qed.

Lemma mul_good x y :
  good x → normal y → good (Num.mul x y).
Proof.
  intros [Hx| ->] Hy.
  - apply mul_fine_good; [done|]. destruct y as [| | |[] my ey]; try done. apply Hy.
  - destruct y as [| | |[] my ey]; try done. by right.
Qed.

(** The binary64 value of a positive integer below [2^53]. *)
Lemma of_Z_pos p :
  Z.pos p < 2 ^ 53 →
  ∃ m e, Num.of_Z (Z.pos p) = S754_finite false m e
         ∧ -52 ≤ e ≤ 0 ∧ Z.pos m = Z.pos p * 2 ^ (- e) ∧ 2 ^ 52 ≤ Z.pos m < 2 ^ 53.
Proof.
  intros Hp. unfold Num.of_Z, binary_normalize, binary_round.
  pose proof (digits2_pos_bounds p) as [Hlo Hhi].
  assert (Z.pos (digits2_pos p) ≤ 53) as Hd by (apply (Zdigits2_le (Z.pos p)); lia).
  pose proof (shl_align_spec p 0 (fexp Num.prec Num.emax (Z.pos (digits2_pos p) + 0))) as Hs.
  destruct (shl_align _ _ _) as [mz ez]. rewrite fexp_eq in Hs.
  destruct Hs as (Hez & Hmz & Hdz).
  assert (ez = Z.pos (digits2_pos p) - 53) as Hez' by flia.
  assert (Z.pos (digits2_pos mz) = 53) as Hdz' by lia.
  pose proof (digits2_pos_bounds mz) as Hmzb. rewrite Hdz' in Hmzb.
  rewrite binary_round_aux_exact by (simpl Zdigits2; rewrite fexp_eq; flia).
  destruct (finish_cases (Z.pos mz) ez ltac:(lia) ltac:(flia))
    as [[Hz _]|[(q & Hq & _ & ->)|[Hz _]]]; [lia| |lia].
  injection Hq as <-.
  rewrite (proj2 (Z.leb_le ez 971)) by lia.
  change (53 - 1) with 52 in Hmzb.
  exists mz, ez. split; [done|]. split; [lia|]. split; [|done].
  rewrite Hmz. by replace (0 - ez) with (- ez) by lia.
Qed.

Lemma of_Z_pos_normal p :
  Z.pos p < 2 ^ 53 →
  normal (Num.of_Z (Z.pos p))
  ∧ val (Num.of_Z (Z.pos p)) = Z.pos p * 2 ^ (- emin).
Proof.
  intros Hp. destruct (of_Z_pos p Hp) as (m & e & -> & He & Hm & Hb). split.
  - split; [|lia]. apply fine_finite. flia.
  - rewrite val_finite, Hm, <- Z.mul_assoc, <- pow2_split by flia.
    f_equal. f_equal. lia.
Qed.

Lemma of_nat_0 : Num.of_nat 0 = Num.zero.
Proof. done. Qed.

Lemma of_nat_pos n :
  (0 < n)%nat → Z.of_nat n < 2 ^ 53 →
  normal (Num.of_nat n) ∧ val (Num.of_nat n) = Z.of_nat n * 2 ^ (- emin).
Proof.
  intros Hn Hlt. unfold Num.of_nat.
  destruct (Z.of_nat n) as [|p|p] eqn:E; [lia| |lia]. by apply of_Z_pos_normal.
Qed.

(** A finite number divided by itself is 1. *)
Lemma div_self s m e :
  Num.div (S754_finite s m e) (S754_finite s m e) = Num.one.
Proof.
  unfold Num.div, SFdiv, SFdiv_core_binary.
  replace (Zdigits2 (Z.pos m) + e - (Zdigits2 (Z.pos m) + e)) with 0 by lia.
  replace (e - e) with 0 by lia.
  change (Z.min (fexp Num.prec Num.emax 0) 0) with (-53).
  change (0 - -53) with 53.
  rewrite Z.shiftl_mul_pow2 by lia.
  pose proof (Z.div_eucl_eq (Z.pos m * 2 ^ 53) (Z.pos m) ltac:(lia)) as Heq.
  pose proof (Z.mod_pos_bound (Z.pos m * 2 ^ 53) (Z.pos m) ltac:(lia)) as Hmod.
  unfold Z.modulo in Hmod.
  destruct (Z.div_eucl (Z.pos m * 2 ^ 53) (Z.pos m)) as [q r].
  assert (q = 2 ^ 53 ∧ r = 0) as [-> ->].
  { apply (Z.div_mod_unique (Z.pos m)); lia. }
  replace (xorb s s) with false by (by destruct s).
  assert (new_location (Z.pos m) 0 = loc_Exact) as ->.
  { unfold new_location. by destruct (Z.even (Z.pos m)). }
  by vm_compute.
Qed.

Lemma normal_finite m e :
  normal (S754_finite false m e) ↔
  emin ≤ e ≤ 971 ∧ 2 ^ 52 ≤ Z.pos m < 2 ^ 53.
Proof.
  unfold normal. change (bounded _ _ m e = true) with (fine (S754_finite false m e)).
  rewrite fine_finite. split; [lia|]. intros [? ?]. split; [|lia]. split; [done|]. lia.
Qed.

Lemma normal_digits m e : normal (S754_finite false m e) → Zdigits2 (Z.pos m) = 53.
Proof.
  rewrite normal_finite. intros [_ [Hlo Hhi]].
  pose proof (Zdigits2_le (Z.pos m) 53 ltac:(lia) ltac:(lia) Hhi).
  pose proof (Zdigits2_ge (Z.pos m) 52 ltac:(lia) Hlo). lia.
Qed.

Lemma normal_fine x : normal x → fine x.
Proof. destruct x as [| | |[] m e]; try done. by intros [? _]. Qed.

(** The quotient of two normal numbers, the smaller by the larger, is at
    most 1. *)
Lemma div_lt_one mx ex my ey :
  normal (S754_finite false mx ex) → normal (S754_finite false my ey) →
  ey - ex ≤ 1021 →
  val (S754_finite false mx ex) < val (S754_finite false my ey) →
  fine (Num.div (S754_finite false mx ex) (S754_finite false my ey))
  ∧ val (Num.div (S754_finite false mx ex) (S754_finite false my ey)) ≤ 2 ^ (- emin).
Proof.
  intros Hx Hy Hgap Hlt.
  pose proof (normal_digits _ _ Hx) as Hdx. pose proof (normal_digits _ _ Hy) as Hdy.
  assert (ex ≤ ey) as Hle.
  { destruct (Z.le_gt_cases ex ey) as [|Hgt]; [done|].
    pose proof (val_lt_exponent _ _ _ _ (normal_fine _ Hy) (normal_fine _ Hx) Hgt). lia. }
  apply normal_finite in Hx as (Hex & Hmx), Hy as (Hey & Hmy).
  rewrite !val_finite in Hlt.
  unfold Num.div, SFdiv, SFdiv_core_binary. cbn [xorb]. rewrite Hdx, Hdy, fexp_eq.
  set (z := ex - ey).
  replace (53 + ex - (53 + ey)) with z by lia.
  replace (Z.min (Z.max (z - 53) emin) z) with (z - 53) by flia.
  replace (z - (z - 53)) with 53 by lia.
  rewrite Z.shiftl_mul_pow2 by lia.
  pose proof (Z.div_eucl_eq (Z.pos mx * 2 ^ 53) (Z.pos my) ltac:(lia)) as Heq.
  pose proof (Z.mod_pos_bound (Z.pos mx * 2 ^ 53) (Z.pos my) ltac:(lia)) as Hmod.
  unfold Z.modulo in Hmod.
  destruct (Z.div_eucl (Z.pos mx * 2 ^ 53) (Z.pos my)) as [q r].
  (* the quotient has 53 or 54 bits and is below 2^(53 - z) *)
  assert (2 ^ 52 ≤ q) as Hq1.
  { change (2 ^ 53) with (2 * 2 ^ 52) in *. nia. }
  assert (q < 2 ^ 54) as Hq2.
  { change (2 ^ 54) with (4 * 2 ^ 52). change (2 ^ 53) with (2 * 2 ^ 52) in *. nia. }
  assert (Z.pos mx < Z.pos my * 2 ^ (- z)) as Hv.
  { replace (ey - emin) with (- z + (ex - emin)) in Hlt by lia.
    rewrite pow2_split in Hlt by lia.
    pose proof (pow2_pos (ex - emin) ltac:(lia)). nia. }
  assert (q < 2 ^ (53 - z)) as Hq3.
  { replace (53 - z) with (- z + 53) by lia. rewrite pow2_split by lia.
    pose proof (pow2_pos (- z) ltac:(lia)).
    assert (Z.pos mx * 2 ^ 53 < Z.pos my * 2 ^ (- z) * 2 ^ 53) by nia. nia. }
  pose proof (Zdigits2_ge q 52 ltac:(lia) Hq1) as Hd1.
  pose proof (Zdigits2_le q 54 ltac:(lia) ltac:(lia) Hq2) as Hd2.
  set (k := fexp Num.prec Num.emax (Zdigits2 q + (z - 53)) - (z - 53)).
  assert (k = Zdigits2 q - 53) as Hk by (unfold k; rewrite fexp_eq; flia).
  destruct (round_aux_good q (z - 53) (new_location (Z.pos my) r) ltac:(lia))
    as (Hg & Hup & _); [fold k; lia|]. fold k in Hup.
  set (res := binary_round_aux _ _ _ _ _ _) in *.
  assert (val res ≤ 2 ^ (- emin)) as Hres.
  { etrans; [exact Hup|].
    replace (- emin) with ((53 - z - k) + (z - 53 + k - emin)) by lia.
    rewrite pow2_split by flia.
    apply Z.mul_le_mono_nonneg_r; [apply Z.pow_nonneg; lia|].
    assert (q / 2 ^ k < 2 ^ (53 - z - k)); [|lia].
    apply Z.div_lt_upper_bound; [apply pow2_pos; lia|].
    rewrite <- pow2_split by lia. by replace (k + (53 - z - k)) with (53 - z) by lia. }
  split; [|done].
  destruct Hg as [Hf|Hi]; [done|]. rewrite Hi in Hres. simpl val in Hres.
  assert (2 ^ (- emin) < 2 ^ (1024 - emin)) by (apply Z.pow_lt_mono_r; flia). lia.
Qed.

Lemma one_eq : Num.one = S754_finite false (2 ^ 52) (-52).
Proof. done. Qed.

Lemma val_one : val Num.one = 2 ^ (- emin).
Proof. done. Qed.

(** [1 - q] for [q] between 0 and 1. *)
Lemma sub_one_good q :
  fine q → val q ≤ 2 ^ (- emin) → good (Num.sub Num.one q).
Proof.
  intros Hq Hle. destruct q as [[]|[]| |[] mq eq]; try done.
  { left. by vm_compute. }
  pose proof (fine_emin _ _ Hq) as He.
  rewrite one_eq. unfold Num.sub, SFsub. set (ez := Z.min (-52) eq).
  pose proof (align_val (2 ^ 52) (-52) ez ltac:(flia)) as Ha.
  pose proof (align_val mq eq ez ltac:(flia)) as Hb.
  rewrite <- (val_finite mq eq) in Hb.
  change (Z.pos (2 ^ 52) * 2 ^ (-52 - emin)) with (2 ^ (- emin)) in Ha.
  cbn [cond_Zopp].
  pose proof (pow2_pos (ez - emin) ltac:(flia)).
  set (a := Z.pos (shl_align (2 ^ 52) (-52) ez).1) in *.
  set (b := Z.pos (shl_align mq eq ez).1) in *.
  assert (b ≤ a) as Hab.
  { apply (Z.mul_le_mono_pos_r _ _ (2 ^ (ez - emin))); lia. }
  destruct (a - b) as [|d|d] eqn:E.
  - by left.
  - cbn [binary_normalize]. apply binary_round_good. flia.
  - lia.
Qed.
Local Close Scope Z_scope.

(** ** compareStrings: the short circuit *)

Lemma absent_truthy v : absent v ↔ truthy v = false.
Proof.
  unfold absent. destruct v as [| |[|c s]]; simpl; split; auto;
    first [ by intros [?|[?|?]] | done ].
Qed.

(** C9: when either argument is absent, null or the empty string,
    [compareStrings] returns exactly 0, whatever the engine's string
    operations are: none of them is consulted. *)
Theorem compareStrings_absent `{Runtime} (a b : jsval) :
  absent a ∨ absent b → compareStrings a b = Num.zero.
Proof.
  rewrite !absent_truthy. unfold compareStrings.
  intros [-> | ->]; simpl; [done|]. by rewrite orb_true_r.
Qed.

Lemma compareStrings_absent_witness :
  compareStrings JNull (JStr (js "test")) = Num.zero.
Proof. apply compareStrings_absent. left. right. by left. Defined.

(** ** structuralBonus *)

Lemma filter_Boolean_truthy pieces t : t ∈ filter_Boolean pieces → truthy_str t = true.
Proof. unfold filter_Boolean. rewrite list_elem_of_filter. tauto. Qed.

Lemma truthy_elem_lookup pieces i t :
  filter_Boolean pieces !! i = Some t → truthy_elem (Some t) = true.
Proof. intros Hi. eapply filter_Boolean_truthy, list_elem_of_lookup_2, Hi. Qed.

Lemma first_unit_head (t : jsstring) : first_unit (Some t) = head t.
Proof. by destruct t. Qed.

Lemma structuralBonus_eq_spec (aSan bSan : jsstring) :
  structuralBonus aSan bSan = structuralBonus_spec aSan bSan.
Proof.
  unfold structuralBonus, structuralBonus_spec, space_tokens.
  set (aT := filter_Boolean (split_char SPACE aSan)).
  set (bT := filter_Boolean (split_char SPACE bSan)).
  rewrite !last_lookup, !head_lookup.
  replace (pred (length aT)) with (length aT - 1) by lia.
  replace (pred (length bT)) with (length bT - 1) by lia.
  destruct aT as [|a0 aT'] eqn:HaT; [done|].
  destruct bT as [|b0 bT'] eqn:HbT.
  { simpl. by destruct (_ !! _). }
  rewrite <- HaT, <- HbT.
  assert (length aT - 1 < length aT) as Hla by (rewrite HaT; simpl; lia).
  assert (length bT - 1 < length bT) as Hlb by (rewrite HbT; simpl; lia).
  apply lookup_lt_is_Some_2 in Hla as [al Hal], Hlb as [bl Hbl].
  rewrite Hal, Hbl.
  assert (aT !! 0 = Some a0) as Ha0 by (by rewrite HaT).
  assert (bT !! 0 = Some b0) as Hb0 by (by rewrite HbT).
  rewrite Ha0, Hb0.
  rewrite (truthy_elem_lookup _ _ _ Hal), (truthy_elem_lookup _ _ _ Hbl),
    (truthy_elem_lookup _ _ _ Ha0), (truthy_elem_lookup _ _ _ Hb0).
  rewrite !first_unit_head. simpl.
  replace (length aT =? 0) with false by (symmetry; apply Nat.eqb_neq; rewrite HaT; done).
  replace (length bT =? 0) with false by (symmetry; apply Nat.eqb_neq; rewrite HbT; done).
  simpl.
  rewrite (bool_decide_ext (Some al = Some bl) (al = bl)); [done|].
  split; [by intros [= ->]|by intros ->].
Qed.

Lemma structuralBonus_values (aSan bSan : jsstring) :
  structuralBonus aSan bSan ∈ [Num.zero; Num.dec 2 2; Num.dec 5 2; Num.dec 7 2].
Proof.
  rewrite structuralBonus_eq_spec. unfold structuralBonus_spec.
  repeat case_match; rewrite !elem_of_cons; vm_compute; tauto.
Qed.

Lemma structuralBonus_not_negative (aSan bSan : jsstring) :
  not_negative (structuralBonus aSan bSan).
Proof.
  pose proof (structuralBonus_values aSan bSan) as Hv.
  rewrite !elem_of_cons, elem_of_nil in Hv.
  destruct Hv as [->|[->|[->|[->|[]]]]]; by vm_compute.
Qed.

(** *** The tokens that [split(' ').filter(Boolean)] yields *)

Lemma split_char_from_tokens cur s :
  Forall (λ c, c ≠ SPACE) cur →
  tokens_of (cur ++ s) (filter_Boolean (split_char_from SPACE cur s)).
Proof.
  revert cur. induction s as [|c s IH]; intros cur Hcur.
  - simpl. unfold filter_Boolean. rewrite filter_cons, filter_nil.
    destruct cur as [|d cur]; [constructor|].
    rewrite decide_True by done. constructor; [done|done|by left|constructor].
  - cbn [split_char_from]. destruct (N.eqb_spec c SPACE) as [->|Hc].
    + specialize (IH [] ltac:(constructor)). simpl in IH.
      unfold filter_Boolean in *. rewrite filter_cons.
      destruct cur as [|d cur].
      * rewrite decide_False by done. simpl. by constructor.
      * rewrite decide_True by done.
        constructor; [done|done|by right|by constructor].
    + replace (cur ++ c :: s) with ((cur ++ [c]) ++ s) by (by rewrite <- app_assoc).
      apply IH, Forall_app. split; [done|by constructor].
Qed.

Lemma space_tokens_spec s : tokens_of s (space_tokens s).
Proof. apply (split_char_from_tokens [] s). constructor. Qed.

Lemma tokens_of_unique s toks : tokens_of s toks → toks = space_tokens s.
Proof.
  induction 1 as [|s toks Hs IH|t s toks Ht Hns Hs Htoks IH].
  - done.
  - rewrite IH. unfold space_tokens, split_char, filter_Boolean. simpl.
    rewrite filter_cons. by rewrite decide_False by done.
  - rewrite IH. unfold space_tokens, split_char.
    rewrite (split_char_from_app SPACE [] t s Hns). simpl.
    unfold filter_Boolean.
    assert (truthy_str t = true) as Htt by (destruct t; [by destruct Ht|done]).
    destruct Hs as [->|Hs].
    + simpl. rewrite !filter_cons, filter_nil.
      rewrite (decide_True _ _ Htt). by rewrite decide_False by done.
    + destruct s as [|c s]; [done|]. injection Hs as ->. simpl.
      rewrite !filter_cons. rewrite (decide_True _ _ Htt).
      by rewrite decide_False by done.
Qed.

Lemma structuralBonus_tokens (aSan bSan : jsstring) aT bT :
  tokens_of aSan aT → tokens_of bSan bT →
  structuralBonus aSan bSan = bonus_of_tokens aT bT.
Proof.
  intros ->%tokens_of_unique ->%tokens_of_unique.
  rewrite structuralBonus_eq_spec. unfold structuralBonus_spec, bonus_of_tokens.
  destruct (space_tokens aSan) as [|a aT] eqn:Ea; [done|].
  destruct (space_tokens bSan) as [|b bT] eqn:Eb.
  { by destruct (last (a :: aT)). }
  destruct (last (a :: aT)) as [al|] eqn:Hal; [|by apply last_None in Hal].
  destruct (last (b :: bT)) as [bl|] eqn:Hbl; [|by apply last_None in Hbl].
  change (head (a :: aT)) with (Some a). change (head (b :: bT)) with (Some b).
  cbv beta iota.
  rewrite (bool_decide_ext (Some al = Some bl) (al = bl)); [done|].
  split; [by intros [= ->]|by intros ->].
Qed.

(** C7: for the token lists of the two strings (their maximal blocks of
    characters other than the space), [structuralBonus] is 0 when either
    list is empty, and otherwise 0.05 for equal last tokens plus 0.02 for
    equal first characters of the first tokens; every string has such
    token lists, and the value is one of 0, 0.02, 0.05 and 0.07. *)
Theorem structuralBonus_correct (aSan bSan : jsstring) :
  (∃ aT bT, tokens_of aSan aT ∧ tokens_of bSan bT)
  ∧ (∀ aT bT, tokens_of aSan aT → tokens_of bSan bT →
       structuralBonus aSan bSan = bonus_of_tokens aT bT)
  ∧ structuralBonus aSan bSan ∈ [Num.zero; Num.dec 2 2; Num.dec 5 2; Num.dec 7 2].
Proof.
  split; [|split].
  - exists (space_tokens aSan), (space_tokens bSan). split; apply space_tokens_spec.
  - apply structuralBonus_tokens.
  - apply structuralBonus_values.
Qed.

Lemma tokens_of_example t1 t2 t3 :
  t1 ≠ [] → t2 ≠ [] → t3 ≠ [] →
  Forall (λ c, c ≠ SPACE) t1 → Forall (λ c, c ≠ SPACE) t2 → Forall (λ c, c ≠ SPACE) t3 →
  tokens_of (t1 ++ SPACE :: t2 ++ SPACE :: t3 ++ []) [t1; t2; t3].
Proof.
  intros.
  apply tokens_block; [done|done|by right|]. apply tokens_space.
  apply tokens_block; [done|done|by right|]. apply tokens_space.
  apply tokens_block; [done|done|by left|]. apply tokens_end.
Qed.

Lemma structuralBonus_correct_witness :
  structuralBonus (js "john a smith") (js "john b smith") = Num.dec 7 2
  ∧ structuralBonus (js "john doe") (js "jane smith") = Num.dec 2 2
  ∧ structuralBonus (js "alice") (js "bob") = Num.zero.
Proof.
  split; [|split].
  - destruct (structuralBonus_correct (js "john a smith") (js "john b smith"))
      as (_ & Heq & _).
    rewrite (Heq [js "john"; js "a"; js "smith"] [js "john"; js "b"; js "smith"]);
      [by vm_compute
      |apply (tokens_of_example (js "john") (js "a") (js "smith"));
         [done|done|done|by apply (bool_decide_unpack _); vm_compute..]
      |apply (tokens_of_example (js "john") (js "b") (js "smith"));
         [done|done|done|by apply (bool_decide_unpack _); vm_compute..]].
  - by vm_compute.
  - by vm_compute.
Defined.


(** ** sanitizeName: the tokens *)

Lemma replace_runs_from_only_SPACE cls b s :
  Forall (λ c, cls c = true → c = SPACE) (replace_runs_from cls b s).
Proof.
  revert b. induction s as [|c s IH]; intros b; simpl; [done|].
  destruct (cls c) eqn:Hc; [destruct b|]; try constructor; try done.
  by rewrite Hc.
Qed.

Lemma drop_while_Forall {A} (P : A → Prop) p l :
  Forall P l → Forall P (drop_while p l).
Proof.
  induction 1 as [|x l Hx Hl IH]; simpl; [done|].
  destruct (p x); [done|by constructor].
Qed.

Lemma trim_Forall (P : codeunit → Prop) s : Forall P s → Forall P (trim s).
Proof.
  intros Hs. unfold trim, trim_end, trim_start.
  apply Forall_reverse, drop_while_Forall, Forall_reverse.
  by apply drop_while_Forall.
Qed.

Lemma space_tokens_good x :
  Forall (λ c, is_space c = true → c = SPACE) x →
  Forall good_token (space_tokens x).
Proof.
  intros Hx. unfold space_tokens, filter_Boolean, split_char.
  apply Forall_forall. intros t [Ht Hin]%list_elem_of_filter.
  split; [by destruct t|].
  pose proof (split_char_from_Forall _ SPACE [] x (Forall_nil_2 _) Hx) as H1.
  pose proof (split_char_from_no_sep SPACE [] x (Forall_nil_2 _)) as H2.
  rewrite Forall_forall in H1, H2. specialize (H1 _ Hin). specialize (H2 _ Hin).
  rewrite Forall_forall in H1, H2. apply Forall_forall. intros c Hc.
  destruct (is_space c) eqn:E; [|done]. exfalso. by apply (H2 c Hc), H1.
Qed.

Lemma drop_honorifics_Forall (P : jsstring → Prop) toks :
  Forall P toks → Forall P (drop_honorifics toks).
Proof.
  induction 1 as [|t toks Ht Htoks IH]; simpl; [done|].
  case_bool_decide; [done|by constructor].
Qed.

Lemma drop_honorifics_head toks t :
  head (drop_honorifics toks) = Some t → t ∉ HONORIFICS.
Proof.
  induction toks as [|u toks IH]; simpl; [done|].
  case_bool_decide as Hu; [done|]. by intros [= <-].
Qed.

Lemma Forall_removelast {A} (P : A → Prop) l : Forall P l → Forall P (removelast l).
Proof.
  induction 1 as [|x l Hx Hl IH]; simpl; [done|].
  destruct l; [done|by constructor].
Qed.

Lemma pop_suffixes_Forall (P : jsstring → Prop) n toks :
  Forall P toks → Forall P (pop_suffixes n toks).
Proof.
  revert toks. induction n as [|n IH]; intros toks Htoks; simpl; [done|].
  destruct (ends_with_suffix toks); [|done]. by apply IH, Forall_removelast.
Qed.



Lemma length_removelast {A} (l : list A) : length (removelast l) = pred (length l).
Proof. induction l as [|x [|y l] IH]; simpl in *; [done..|]. by rewrite IH. Qed.

Lemma ends_with_suffix_nil : ends_with_suffix [] = false.
Proof. done. Qed.

Lemma pop_suffixes_done n toks :
  length toks ≤ n → ends_with_suffix (pop_suffixes n toks) = false.
Proof.
  revert toks. induction n as [|n IH]; intros toks Hn; simpl.
  - by destruct toks; [|simpl in Hn; lia].
  - destruct (ends_with_suffix toks) eqn:E; [|done].
    apply IH. rewrite length_removelast. lia.
Qed.

Lemma suffix_no_trailing_dots t : t ∈ SUFFIXES → strip_trailing_dots t = t.
Proof.
  unfold SUFFIXES. rewrite elem_of_list_to_set. simpl.
  rewrite !elem_of_cons, elem_of_nil.
  intros H; repeat destruct H as [->|H]; done.
Qed.

Lemma ends_with_suffix_last toks t :
  ends_with_suffix toks = false → last toks = Some t → t ∉ SUFFIXES.
Proof.
  unfold ends_with_suffix. intros He Hl Ht. rewrite Hl in He.
  rewrite suffix_no_trailing_dots in He by done. by rewrite bool_decide_eq_false in He.
Qed.

Section Tokens.
Context `{Runtime}.

Lemma stripped_tokens_good s : Forall good_token (stripped_tokens s).
Proof.
  unfold stripped_tokens. apply pop_suffixes_Forall, drop_honorifics_Forall.
  apply space_tokens_good, trim_Forall, replace_runs_from_only_SPACE.
Qed.


Lemma stripped_tokens_last s t :
  last (stripped_tokens s) = Some t → t ∉ SUFFIXES.
Proof.
  unfold stripped_tokens. apply ends_with_suffix_last. by apply pop_suffixes_done.
Qed.

End Tokens.

(** ** sanitizeName: collapsing the initials *)

Lemma collapse_foldl collapsed buffer toks :
  (let '(collapsed', buffer') := foldl collapse_step (collapsed, buffer) toks in
   if truthy_str buffer' then collapsed' ++ [buffer'] else collapsed')
  = collapsed ++ collapse_from buffer toks.
Proof.
  revert collapsed buffer. induction toks as [|t toks IH]; intros collapsed buffer.
  - simpl. destruct (truthy_str buffer); [done|]. by rewrite app_nil_r.
  - simpl. destruct (is_single_letter t); [apply IH|].
    rewrite IH. destruct buffer; simpl; by rewrite <- !app_assoc.
Qed.

Lemma collapse_initials_from toks : collapse_initials toks = collapse_from [] toks.
Proof. unfold collapse_initials. apply (collapse_foldl [] []). Qed.

Lemma single_letter_good t : is_single_letter t = true → good_token t.
Proof.
  destruct t as [|c [|d t]]; try done. simpl. intros Hc. split; [done|].
  repeat constructor. unfold is_lower_az, in_range in Hc.
  apply andb_true_iff in Hc as [H1%N.leb_le H2%N.leb_le].
  destruct (is_space c) eqn:E; [|done]. apply is_space_spec in E. lia.
Qed.

Lemma collapse_from_good buffer toks :
  Forall (λ c, is_space c = false) buffer → Forall good_token toks →
  Forall good_token (collapse_from buffer toks).
Proof.
  intros Hb Htoks. revert buffer Hb.
  induction Htoks as [|t toks Ht Htoks IH]; intros buffer Hb; simpl.
  - destruct buffer; simpl; [constructor|]. constructor; [by split|constructor].
  - destruct (is_single_letter t) eqn:E.
    + apply IH, Forall_app. split; [done|]. apply Ht.
    + apply Forall_app. split.
      * destruct buffer; simpl; [constructor|]. constructor; [by split|constructor].
      * constructor; [done|]. by apply IH.
Qed.









Lemma sanitizeName_tokens `{Runtime} (s : jsval) :
  truthy s = true →
  sanitizeName s = join SPACE (collapse_from [] (stripped_tokens s))
  ∧ Forall good_token (collapse_from [] (stripped_tokens s)).
Proof.
  intros Hs. unfold sanitizeName. rewrite Hs. simpl.
  rewrite collapse_initials_from.
  assert (Forall good_token (collapse_from [] (stripped_tokens s))) as Hg.
  { apply collapse_from_good; [done|]. apply stripped_tokens_good. }
  split; [|done]. by apply sanitize_join.
Qed.



(** ** stripDiacritics *)

Lemma Latin1_nfkd_unit (c : codeunit) :
  (c < 128)%N →
  default (default [c] (Latin1.assoc c Latin1.compat)) (Latin1.canonical_unit c) = [c].
Proof.
  intros Hc. unfold Latin1.canonical_unit, in_range.
  replace (192 <=? c)%N with false by (symmetry; apply N.leb_gt; lia).
  replace (224 <=? c)%N with false by (symmetry; apply N.leb_gt; lia).
  replace (c =? 255)%N with false by (symmetry; apply N.eqb_neq; lia).
  replace (c =? 8491)%N with false by (symmetry; apply N.eqb_neq; lia).
  cbn [andb default]. unfold Latin1.compat. cbn [Latin1.assoc].
  repeat match goal with
  | |- context [(c =? ?k)%N] =>
      replace (c =? k)%N with false by (symmetry; apply N.eqb_neq; lia)
  end.
  done.
Qed.

Lemma Latin1_nfkd_ascii : @nfkd_keeps_ascii latin1_runtime.
Proof.
  intros s Hs. change (Latin1.nfkd s = s). unfold Latin1.nfkd.
  induction Hs as [|c s Hc Hs IH]; [done|].
  cbn [mbind list_bind]. rewrite IH at 1. by rewrite Latin1_nfkd_unit.
Qed.

Lemma is_combining_mark_spec c : is_combining_mark c = false ↔ ¬ diacritical_mark c.
Proof.
  unfold is_combining_mark, in_range, diacritical_mark.
  rewrite andb_false_iff, !N.leb_gt. lia.
Qed.

Lemma filter_marks (s : jsstring) :
  filter (λ c, is_combining_mark c = false) s = filter (λ c, ¬ diacritical_mark c) s.
Proof. apply list_filter_iff. intros c. apply is_combining_mark_spec. Qed.

Lemma ascii_no_marks s : ascii_text s → Forall (λ c, ¬ diacritical_mark c) s.
Proof.
  intros Hs. eapply Forall_impl; [exact Hs|].
  intros c Hc. simpl in Hc. unfold diacritical_mark. lia.
Qed.

Lemma filter_all {A} (P : A → Prop) `{∀ x, Decision (P x)} (l : list A) :
  Forall P l → filter P l = l.
Proof.
  induction 1 as [|x l Hx Hl IH]; [done|].
  rewrite filter_cons_True by done. by rewrite IH.
Qed.

(** C4, as amended: [stripDiacritics] is the compatibility decomposition
    (NFKD) of the engine followed by the deletion of every code unit of
    U+0300 to U+036F; no such code unit is left in the result; a string
    that NFKD leaves as it is and that holds no such code unit passes
    through unchanged; and, NFKD leaving ASCII text as it is, every plain
    ASCII string passes through unchanged. *)
Theorem stripDiacritics_nfkd `{Runtime} (s : jsstring) :
  nfkd_keeps_ascii →
  stripDiacritics s = filter (λ c, ¬ diacritical_mark c) (normalizeNFKD s)
  ∧ Forall (λ c, ¬ diacritical_mark c) (stripDiacritics s)
  ∧ (normalizeNFKD s = s → Forall (λ c, ¬ diacritical_mark c) s →
     stripDiacritics s = s)
  ∧ (ascii_text s → stripDiacritics s = s).
Proof.
  intros Hlaw. unfold stripDiacritics. rewrite filter_marks.
  split; [done|]. split; [|split].
  - apply Forall_forall. by intros c [Hc _]%list_elem_of_filter.
  - intros Hn Hs. rewrite Hn. by apply filter_all.
  - intros Hs. rewrite (Hlaw s Hs). by apply filter_all, ascii_no_marks.
Qed.

Lemma stripDiacritics_nfkd_witness :
  nfkd_keeps_ascii
  ∧ ascii_text (js "Hello, World 42!")
  ∧ stripDiacritics (js "Hello, World 42!") = js "Hello, World 42!"
  ∧ stripDiacritics [99; 97; 102; 233]%N = js "cafe".
Proof.
  assert (ascii_text (js "Hello, World 42!")) as Ha
    by (by apply (bool_decide_unpack _); vm_compute).
  split; [apply Latin1_nfkd_ascii|]. split; [done|]. split; [|by vm_compute].
  by apply (stripDiacritics_nfkd (js "Hello, World 42!") Latin1_nfkd_ascii).
Defined.


(** C4, as stated, fails: U+00B2 SUPERSCRIPT TWO, which is no letter and
    has no canonical decomposition, does not pass through unchanged: its
    compatibility decomposition is the digit 2. *)
Lemma stripDiacritics_not_canonical :
  stripDiacritics [178%N] = [50%N]
  ∧ stripDiacritics_canonical Latin1.nfd [178%N] = [178%N]
  ∧ stripDiacritics [178%N] ≠ stripDiacritics_canonical Latin1.nfd [178%N].
Proof. by vm_compute. Qed.

(** ** compareNames *)

Lemma split_char_from_cons sep cur s :
  ∃ p ps, split_char_from sep cur s = p :: ps.
Proof.
  revert cur. induction s as [|c s IH]; intros cur; simpl; [by eauto|].
  destruct (c =? sep)%N; [by eauto|apply IH].
Qed.

Lemma join_split_char_from sep cur s :
  join sep (split_char_from sep cur s) = cur ++ s.
Proof.
  revert cur. induction s as [|c s IH]; intros cur; simpl.
  - by rewrite app_nil_r.
  - destruct (N.eqb_spec c sep) as [->|].
    + destruct (split_char_from_cons sep [] s) as (p & ps & E).
      specialize (IH []). rewrite E in *. simpl in IH. by rewrite <- IH.
    + by rewrite IH, <- app_assoc.
Qed.

Lemma joinSingles_id (s : jsstring) : joinSingles s = s.
Proof.
  unfold joinSingles.
  erewrite list_fmap_ext; [rewrite list_fmap_id|].
  - apply (join_split_char_from SPACE []).
  - intros _ t _. simpl. by destruct (length t =? 1).
Qed.

Lemma clamp01_not_negative x : not_negative (clamp01 x).
Proof. apply max_zero_not_negative. Qed.

Lemma compareStrings_not_negative `{Runtime} a b : not_negative (compareStrings a b).
Proof.
  unfold compareStrings. destruct (_ || _); [done|apply clamp01_not_negative].
Qed.

Lemma compareNames_eq `{Runtime} (a b : jsval) :
  compareNames a b
  = Num.min Num.one
      (Num.add (compareStrings (JStr (sanitizeName a)) (JStr (sanitizeName b)))
               (structuralBonus (sanitizeName a) (sanitizeName b))).
Proof.
  unfold compareNames. simpl.
  apply max_zero_id, min_one_not_negative, add_not_negative.
  - apply compareStrings_not_negative.
  - apply structuralBonus_not_negative.
Qed.

(** C6: [compareNames] is the direct computation
    [min(1, compareStrings(aSan, bSan) + structuralBonus(aSan, bSan))] on the
    two sanitized names: the variant lists hold one name each, the running
    maximum starts at 0 and the clamped sum is never below it; and the hook
    [joinSingles] is the identity. *)
Theorem compareNames_direct `{Runtime} (a b : jsval) :
  compareNames a b
  = Num.min Num.one
      (Num.add (compareStrings (JStr (sanitizeName a)) (JStr (sanitizeName b)))
               (structuralBonus (sanitizeName a) (sanitizeName b)))
  ∧ ∀ s, joinSingles s = s.
Proof. split; [apply compareNames_eq|apply joinSingles_id]. Qed.

(** ** The edit distance *)

Lemma lev_nil_r s : lev s [] = length s.
Proof. by destruct s. Qed.

Lemma lev_cons c s d t :
  lev (c :: s) (d :: t)
  = Nat.min (lev (c :: s) t + 1)
      (Nat.min (lev s (d :: t) + 1)
               (lev s t + (if bool_decide (c = d) then 0 else 1))).
Proof. done. Qed.

Lemma lev_refl s : lev s s = 0.
Proof.
  induction s as [|c s IH]; [done|].
  rewrite lev_cons, IH, bool_decide_eq_true_2 by done. lia.
Qed.

Lemma lev_sym s t : lev s t = lev t s.
Proof.
  revert t. induction s as [|c s IHs]; intros t.
  - by rewrite lev_nil_r.
  - induction t as [|d t IHt]; [done|].
    rewrite !lev_cons, IHt, !IHs.
    rewrite (bool_decide_ext (c = d) (d = c)) by done. lia.
Qed.

Lemma lev_bound s t : lev s t ≤ Nat.max (length s) (length t).
Proof.
  revert t. induction s as [|c s IHs]; intros t; [simpl; lia|].
  destruct t as [|d t]; [simpl; lia|].
  rewrite lev_cons. specialize (IHs t). simpl. case_bool_decide; lia.
Qed.

Lemma lev_delete c s u : lev (c :: s) u ≤ S (lev s u).
Proof.
  destruct u as [|d u]; [by rewrite !lev_nil_r|]. rewrite lev_cons. lia.
Qed.

Lemma lev_insert_r s d u : lev s (d :: u) ≤ S (lev s u).
Proof.
  destruct s as [|c s]; [done|]. rewrite lev_cons. lia.
Qed.

Lemma lev_step s t : edit_step s t → ∀ u, lev s u ≤ S (lev t u).
Proof.
  induction 1 as [c s|c s|c d s|c s t Hst IH]; intros u.
  - apply lev_delete.
  - induction u as [|e u IHu]; [rewrite !lev_nil_r; simpl; lia|].
    rewrite lev_cons. pose proof (lev_insert_r s e u). lia.
  - induction u as [|e u IHu]; [rewrite !lev_nil_r; simpl; lia|].
    rewrite !lev_cons. pose proof (lev_delete c s (e :: u)).
    repeat case_bool_decide; lia.
  - induction u as [|e u IHu].
    + rewrite !lev_nil_r. specialize (IH []). rewrite !lev_nil_r in IH. simpl. lia.
    + rewrite !lev_cons. pose proof (IH (e :: u)). pose proof (IH u).
      case_bool_decide; lia.
Qed.

Lemma lev_lower_bound n s t : edit_path n s t → lev s t ≤ n.
Proof.
  induction 1 as [s|n s t u Hst Htu IH]; [by rewrite lev_refl|].
  pose proof (lev_step _ _ Hst u). lia.
Qed.

Lemma edit_path_snoc n s t u : edit_path n s t → edit_step t u → edit_path (S n) s u.
Proof.
  induction 1 as [s|n s t' t Hst Htu IH]; intros Hu.
  - eapply path_step; [done|constructor].
  - eapply path_step; [done|]. by apply IH.
Qed.

Lemma edit_path_further n c s t : edit_path n s t → edit_path n (c :: s) (c :: t).
Proof.
  induction 1 as [s|n s t u Hst Htu IH]; [constructor|].
  eapply path_step; [|done]. by constructor.
Qed.

Lemma edit_path_insertions t : edit_path (length t) [] t.
Proof.
  induction t as [|c t IH]; [constructor|].
  eapply edit_path_snoc; [done|constructor].
Qed.

Lemma edit_path_deletions s : edit_path (length s) s [].
Proof.
  induction s as [|c s IH]; [constructor|].
  eapply path_step; [|done]. constructor.
Qed.

Lemma lev_path s t : edit_path (lev s t) s t.
Proof.
  revert t. induction s as [|c s IHs]; intros t; [apply edit_path_insertions|].
  induction t as [|d t IHt]; [apply edit_path_deletions|].
  rewrite lev_cons.
  assert (edit_path (lev (c :: s) t + 1) (c :: s) (d :: t)) as H1.
  { rewrite Nat.add_1_r. eapply edit_path_snoc; [done|constructor]. }
  assert (edit_path (lev s (d :: t) + 1) (c :: s) (d :: t)) as H2.
  { rewrite Nat.add_1_r. eapply path_step; [|apply IHs]. constructor. }
  assert (edit_path (lev s t + (if bool_decide (c = d) then 0 else 1)) (c :: s) (d :: t)) as H3.
  { case_bool_decide as Hcd.
    - subst. rewrite Nat.add_0_r. apply edit_path_further, IHs.
    - rewrite Nat.add_1_r. eapply path_step; [apply (edit_substitute c d)|].
      apply edit_path_further, IHs. }
  destruct (Nat.min_spec (lev s (d :: t) + 1)
              (lev s t + (if bool_decide (c = d) then 0 else 1))) as [[_ ->]|[_ ->]];
  match goal with |- edit_path (Nat.min ?a ?b) _ _ =>
    destruct (Nat.min_spec a b) as [[_ ->]|[_ ->]] end; done.
Qed.

Lemma lev_edit_distance s t : edit_distance s t (lev s t).
Proof. split; [apply lev_path|]. intros n. apply lev_lower_bound. Qed.

Lemma edit_distance_unique s t d d' :
  edit_distance s t d → edit_distance s t d' → d = d'.
Proof. intros [H1 H2] [H1' H2']. apply H2 in H1'. apply H2' in H1. lia. Qed.

(** Reading both strings backwards keeps the distance. *)
Lemma edit_step_app s t r : edit_step s t → edit_step (s ++ r) (t ++ r).
Proof. induction 1; simpl; by constructor. Qed.

Lemma edit_step_prefix p s t : edit_step s t → edit_step (p ++ s) (p ++ t).
Proof. intros Hst. induction p; simpl; [done|by constructor]. Qed.

Lemma edit_step_reverse s t : edit_step s t → edit_step (reverse s) (reverse t).
Proof.
  induction 1 as [c s|c s|c d s|c s t Hst IH]; rewrite ?reverse_cons.
  - rewrite <- (app_nil_r (reverse s)) at 2. apply edit_step_prefix. constructor.
  - rewrite <- (app_nil_r (reverse s)) at 1. apply edit_step_prefix. constructor.
  - apply edit_step_prefix. constructor.
  - by apply edit_step_app.
Qed.

Lemma edit_path_reverse n s t : edit_path n s t → edit_path n (reverse s) (reverse t).
Proof.
  induction 1 as [s|n s t u Hst Htu IH]; [constructor|].
  eapply path_step; [|done]. by apply edit_step_reverse.
Qed.

Lemma lev_reverse s t : lev (reverse s) (reverse t) = lev s t.
Proof.
  apply Nat.le_antisymm; apply lev_lower_bound.
  - apply edit_path_reverse, lev_path.
  - rewrite <- (reverse_involutive s), <- (reverse_involutive t) at 2.
    apply edit_path_reverse, lev_path.
Qed.

(** ** The table of [levenshtein] *)

Section LevTable.
Variables s1 s2 : jsstring.

(** The distance between the first [i] characters of [s1] and the first
    [j] characters of [s2]. *)
Let D (i j : nat) : nat := lev (reverse (take i s1)) (reverse (take j s2)).

(** The cells [dp[j][i]] with [P j i] hold [D i j]. *)
Let filled (P : nat → nat → Prop) (dp : list (list (option nat))) : Prop :=
  dims dp (length s2 + 1) (length s1 + 1)
  ∧ ∀ j i, j ≤ length s2 → i ≤ length s1 → P j i → cell dp j i = Some (Some (D i j)).

Lemma D_row0 i : i ≤ length s1 → D i 0 = i.
Proof.
  intros Hi. unfold D. rewrite take_0, lev_nil_r, length_reverse, length_take. lia.
Qed.

Lemma D_col0 j : j ≤ length s2 → D 0 j = j.
Proof.
  intros Hj. unfold D. rewrite take_0. simpl. rewrite length_reverse, length_take. lia.
Qed.

Lemma reverse_take_S (s : jsstring) i c :
  s !! i = Some c → reverse (take (S i) s) = c :: reverse (take i s).
Proof. intros Hc. by rewrite (take_S_r _ _ _ Hc), reverse_app. Qed.

Lemma D_step i j :
  1 ≤ i ≤ length s1 → 1 ≤ j ≤ length s2 →
  D i j = Nat.min (D i (j - 1) + 1)
            (Nat.min (D (i - 1) j + 1)
               (D (i - 1) (j - 1)
                + (if bool_decide (s1 !! (i - 1) = s2 !! (j - 1)) then 0 else 1))).
Proof.
  intros Hi Hj. unfold D.
  destruct (lookup_lt_is_Some_2 s1 (i - 1)) as [c Hc]; [lia|].
  destruct (lookup_lt_is_Some_2 s2 (j - 1)) as [d Hd]; [lia|].
  replace i with (S (i - 1)) at 1 2 by lia.
  replace j with (S (j - 1)) at 1 3 by lia.
  rewrite (reverse_take_S _ _ _ Hc), (reverse_take_S _ _ _ Hd), lev_cons, Hc, Hd.
  apply f_equal, f_equal, f_equal. rewrite (bool_decide_ext (Some c = Some d) (c = d)); [done|].
  split; [by intros [= ->]|by intros ->].
Qed.

Lemma filled_write (P Q : nat → nat → Prop) dp j i :
  filled P dp → j ≤ length s2 → i ≤ length s1 →
  (∀ j' i', Q j' i' → P j' i' ∨ (j' = j ∧ i' = i)) →
  filled Q (wr dp j i (Some (D i j))).
Proof.
  intros [Hd Hc] Hj Hi HQ. split; [by apply wr_dims|].
  intros j' i' Hj' Hi' Hq.
  destruct (decide ((j, i) = (j', i'))) as [[= <- <-]|Hne].
  - eapply cell_wr_eq; [done|lia..].
  - rewrite cell_wr_ne by done. apply Hc; [done..|].
    destruct (HQ _ _ Hq) as [?|[-> ->]]; done.
Qed.

Lemma filled_weaken (P Q : nat → nat → Prop) dp :
  filled P dp →
  (∀ j i, j ≤ length s2 → i ≤ length s1 → Q j i → P j i) →
  filled Q dp.
Proof. intros [Hd Hc] HQ. split; [done|]. intros j i ???. apply Hc; auto. Qed.

Lemma lev_row0_loop dp :
  filled (λ _ _, False) dp →
  filled (λ j i, j = 0)
    (foldl (λ dp i, wr dp 0 i (Some i)) dp (seq 0 (length s1 + 1))).
Proof.
  intros H0.
  eapply filled_weaken.
  - apply (foldl_seq_invariant (λ k, filled (λ j i, j = 0 ∧ i < k))).
    + eapply filled_weaken; [exact H0|]. simpl. lia.
    + intros k dp' Hk Hf.
      replace (Some k) with (Some (D k 0)) by (rewrite D_row0; [done|lia]).
      eapply filled_write; [exact Hf|lia..|]. simpl. intros j' i' [-> Hi'].
      destruct (decide (i' = k)); [by right|left; split; [done|lia]].
  - simpl. lia.
Qed.

Lemma lev_col0_loop dp :
  filled (λ j i, j = 0) dp →
  filled (λ j i, j = 0 ∨ i = 0)
    (foldl (λ dp j, wr dp j 0 (Some j)) dp (seq 0 (length s2 + 1))).
Proof.
  intros H0.
  eapply filled_weaken.
  - apply (foldl_seq_invariant (λ k, filled (λ j i, j = 0 ∨ (i = 0 ∧ j < k)))).
    + eapply filled_weaken; [exact H0|]. simpl. lia.
    + intros k dp' Hk Hf.
      replace (Some k) with (Some (D 0 k)) by (rewrite D_col0; [done|lia]).
      eapply filled_write; [exact Hf|lia..|]. simpl. intros j' i' Hp.
      destruct (decide (j' = k ∧ i' = 0)); [by right|left; lia].
  - simpl. lia.
Qed.

Lemma lev_cell_D dp j i :
  1 ≤ i ≤ length s1 → 1 ≤ j ≤ length s2 →
  filled (λ j' i', j' < j ∨ i' = 0 ∨ (j' = j ∧ i' < i)) dp →
  lev_cell s1 s2 dp j i = wr dp j i (Some (D i j)).
Proof.
  intros Hi Hj [Hd Hc]. unfold lev_cell.
  rewrite !rd_cell, !Hc by lia. simpl. by rewrite <- D_step.
Qed.

Lemma lev_inner_loop dp j :
  1 ≤ j ≤ length s2 →
  filled (λ j' i', j' < j ∨ i' = 0) dp →
  filled (λ j' i', j' < j + 1 ∨ i' = 0)
    (foldl (λ dp i, lev_cell s1 s2 dp j i) dp (seq 1 (length s1))).
Proof.
  intros Hj H0.
  eapply filled_weaken.
  - apply (foldl_seq_invariant (λ k, filled (λ j' i', j' < j ∨ i' = 0 ∨ (j' = j ∧ i' < k)))).
    + eapply filled_weaken; [exact H0|]. simpl. lia.
    + intros k dp' Hk Hf. rewrite lev_cell_D by (done || lia).
      eapply filled_write; [exact Hf|lia..|]. simpl. intros j' i' Hp.
      destruct (decide (j' = j ∧ i' = k)); [by right|left; lia].
  - simpl. lia.
Qed.

Lemma lev_table_filled : filled (λ _ _, True) (lev_table s1 s2).
Proof.
  unfold lev_table. eapply filled_weaken.
  - apply (foldl_seq_invariant (λ k, filled (λ j i, j < k ∨ i = 0))).
    + eapply filled_weaken.
      * apply lev_col0_loop, lev_row0_loop. split; [apply replicate_dims|done].
      * simpl. lia.
    + intros j dp Hj Hf. apply lev_inner_loop; [lia|done].
  - simpl. lia.
Qed.

Lemma levenshtein_lev : levenshtein s1 s2 = lev s1 s2.
Proof.
  unfold levenshtein. destruct lev_table_filled as [_ Hc].
  rewrite rd_cell, Hc by done. simpl. unfold D.
  by rewrite !firstn_all, lev_reverse.
Qed.

End LevTable.

(** C5: the edit-distance score of [compareStrings] is [1 - d / max(len_a,
    len_b)] for the Levenshtein distance [d] of the two strings, the least
    number of single-character insertions, deletions and substitutions
    that turn the one into the other. *)
Theorem levScore_edit_distance (a b : jsstring) :
  ∃ d, edit_distance a b d
       ∧ levenshtein a b = d
       ∧ levScore a b
         = Num.sub Num.one
             (Num.div (Num.of_nat d) (Num.of_nat (Nat.max (length a) (length b)))).
Proof.
  exists (lev a b). split; [apply lev_edit_distance|].
  unfold levScore. by rewrite levenshtein_lev.
Qed.

(** ** The table of [lcs] *)

Lemma common_suffix_unfold s1 s2 i j :
  common_suffix s1 s2 i j
  = if bool_decide (s1 !! i = s2 !! j) then
      S (match i, j with
         | S i', S j' => common_suffix s1 s2 i' j'
         | _, _ => 0
         end)
    else 0.
Proof. by destruct i. Qed.

Lemma common_suffix_sym s1 s2 i j :
  common_suffix s1 s2 i j = common_suffix s2 s1 j i.
Proof.
  revert j. induction i as [|i IH]; intros j.
  - rewrite !(common_suffix_unfold _ _ 0), !(common_suffix_unfold _ _ _ 0).
    rewrite (bool_decide_ext (s1 !! 0 = s2 !! j) (s2 !! j = s1 !! 0)) by done.
    by destruct j.
  - rewrite (common_suffix_unfold _ _ (S i)), (common_suffix_unfold _ _ j (S i)).
    rewrite (bool_decide_ext (s1 !! S i = s2 !! j) (s2 !! j = s1 !! S i)) by done.
    destruct j; [done|]. by rewrite IH.
Qed.

Lemma common_suffix_bound s1 s2 i j : common_suffix s1 s2 i j ≤ S (Nat.min i j).
Proof.
  revert j. induction i as [|i IH]; intros j; rewrite common_suffix_unfold;
    case_bool_decide; try lia.
  destruct j; [lia|]. specialize (IH j). lia.
Qed.

Lemma common_suffix_diag s i : i < length s → common_suffix s s i i = S i.
Proof.
  induction i as [|i IH]; intros Hi; rewrite common_suffix_unfold;
    rewrite bool_decide_eq_true_2 by done; [done|].
  rewrite IH; [done|lia].
Qed.

Lemma longest_common_unique s1 s2 L L' :
  longest_common s1 s2 L → longest_common s1 s2 L' → L = L'.
Proof.
  intros [Hu Ha] [Hu' Ha'].
  assert (L ≤ L').
  { destruct Ha as [->|(i & j & Hi & Hj & <-)]; [lia|by apply Hu']. }
  assert (L' ≤ L).
  { destruct Ha' as [->|(i & j & Hi & Hj & <-)]; [lia|by apply Hu]. }
  lia.
Qed.

Lemma longest_common_sym s1 s2 L : longest_common s1 s2 L → longest_common s2 s1 L.
Proof.
  intros [Hu Ha]. split.
  - intros i j Hi Hj. rewrite common_suffix_sym. by apply Hu.
  - destruct Ha as [->|(i & j & Hi & Hj & <-)]; [by left|right].
    exists j, i. by rewrite common_suffix_sym.
Qed.

Lemma longest_common_refl s : longest_common s s (length s).
Proof.
  split.
  - intros i j Hi Hj. pose proof (common_suffix_bound s s i j). lia.
  - destruct s as [|c s]; [by left|right].
    exists (length s), (length s). simpl.
    rewrite common_suffix_diag by (simpl; lia). split; [lia|]. split; [lia|done].
Qed.

Lemma longest_common_bound s1 s2 L :
  longest_common s1 s2 L → L ≤ Nat.min (length s1) (length s2).
Proof.
  intros [_ [->|(i & j & Hi & Hj & <-)]]; [lia|].
  pose proof (common_suffix_bound s1 s2 i j). lia.
Qed.

Section LcsTable.
Variables s1 s2 : jsstring.

(** The state of the two loops when the cells with [P i j] have been
    visited: these hold their [common_suffix], the others still 0, and
    [longest] is the largest value among the visited cells. *)
Let visited (P : nat → nat → Prop) (st : list (list nat) * nat) : Prop :=
  dims st.1 (length s1) (length s2)
  ∧ (∀ i j, i < length s1 → j < length s2 →
       (P i j → cell st.1 i j = Some (common_suffix s1 s2 i j))
       ∧ (¬ P i j → cell st.1 i j = Some 0))
  ∧ (∀ i j, i < length s1 → j < length s2 → P i j → common_suffix s1 s2 i j ≤ st.2)
  ∧ (st.2 = 0 ∨ ∃ i j, i < length s1 ∧ j < length s2 ∧ P i j
                        ∧ common_suffix s1 s2 i j = st.2).

Lemma visited_weaken (P Q : nat → nat → Prop) st :
  visited P st →
  (∀ i j, i < length s1 → j < length s2 → P i j ↔ Q i j) →
  visited Q st.
Proof.
  intros (Hd & Hc & Hu & Ha) HPQ. split; [done|]. split; [|split].
  - intros i j Hi Hj. rewrite <- (HPQ i j Hi Hj). by apply Hc.
  - intros i j Hi Hj Hq. apply Hu; [done..|]. by apply HPQ.
  - destruct Ha as [?|(i & j & Hi & Hj & Hp & E)]; [by left|right].
    exists i, j. repeat split; try done. by apply HPQ.
Qed.

Lemma lcs_cell_visited st i j :
  i < length s1 → j < length s2 →
  visited (λ i' j', i' < i ∨ (i' = i ∧ j' < j)) st →
  visited (λ i' j', i' < i ∨ (i' = i ∧ j' < j + 1)) (lcs_cell s1 s2 st i j).
Proof.
  intros Hi Hj (Hd & Hc & Hu & Ha). destruct st as [m longest]. simpl in *.
  unfold lcs_cell.
  assert (Hprev : match i, j with
                  | S _, S _ => rd 0 m (i - 1) (j - 1)
                  | _, _ => 0
                  end
                  = match i, j with
                    | S i', S j' => common_suffix s1 s2 i' j'
                    | _, _ => 0
                    end).
  { destruct i as [|i]; [done|]. destruct j as [|j]; [done|].
    rewrite rd_cell. replace (S i - 1) with i by lia. replace (S j - 1) with j by lia.
    destruct (Hc i j) as [H1 _]; [lia|lia|]. rewrite H1; [done|lia]. }
  pose proof (common_suffix_unfold s1 s2 i j) as Hcs.
  case_bool_decide as Heq.
  - rewrite Hprev. rewrite (Nat.add_1_r (match i with 0 => _ | S _ => _ end)), <- Hcs.
    set (v := common_suffix s1 s2 i j) in *.
    split; [by apply wr_dims|]. simpl. split; [|split].
    + intros i' j' Hi' Hj'.
      destruct (decide ((i, j) = (i', j'))) as [[= <- <-]|Hne].
      * split; [|lia]. intros _. by eapply cell_wr_eq.
      * rewrite cell_wr_ne by done. destruct (Hc i' j' Hi' Hj') as [H1 H2].
        split; intros Hp; [apply H1|apply H2]; try lia.
        destruct (decide (i' = i)); [|lia].
        destruct (decide (j' = j)); [|lia]. congruence.
    + intros i' j' Hi' Hj' Hp.
      destruct (decide (i' = i ∧ j' = j)) as [[-> ->]|Hne].
      * fold v. destruct (Nat.ltb_spec longest v); lia.
      * specialize (Hu i' j' Hi' Hj'). destruct (Nat.ltb_spec longest v); lia.
    + destruct (Nat.ltb_spec longest v).
      * right. exists i, j. repeat split; try done. right. lia.
      * destruct Ha as [?|(i' & j' & Hi' & Hj' & Hp & E)]; [by left|right].
        exists i', j'. repeat split; try done. lia.
  - split; [done|]. simpl. split; [|split].
    + intros i' j' Hi' Hj'. destruct (Hc i' j' Hi' Hj') as [H1 H2].
      destruct (decide (i' = i ∧ j' = j)) as [[-> ->]|Hne].
      * split; [|lia]. intros _. rewrite Hcs. apply H2. lia.
      * split; intros Hp; [apply H1|apply H2]; lia.
    + intros i' j' Hi' Hj' Hp.
      destruct (decide (i' = i ∧ j' = j)) as [[-> ->]|Hne]; [rewrite Hcs; lia|].
      apply Hu; [done..|lia].
    + destruct Ha as [?|(i' & j' & Hi' & Hj' & Hp & E)]; [by left|right].
      exists i', j'. repeat split; try done. lia.
Qed.

Lemma lcs_row_visited st i :
  i < length s1 →
  visited (λ i' j', i' < i) st →
  visited (λ i' j', i' < i + 1)
    (foldl (λ st j, lcs_cell s1 s2 st i j) st (seq 0 (length s2))).
Proof.
  intros Hi H0. eapply visited_weaken.
  - apply (foldl_seq_invariant (λ k, visited (λ i' j', i' < i ∨ (i' = i ∧ j' < k)))).
    + eapply visited_weaken; [exact H0|]. simpl. lia.
    + intros k st' Hk Hv. apply lcs_cell_visited; [done|lia|done].
  - simpl. lia.
Qed.

Lemma lcs_longest_spec : longest_common s1 s2 (lcs_longest s1 s2).
Proof.
  assert (visited (λ _ _, True) (lcs_run s1 s2)) as (_ & _ & Hu & Ha).
  { unfold lcs_run. eapply visited_weaken.
    - apply (foldl_seq_invariant (λ k, visited (λ i' j', i' < k))).
      + split; [apply replicate_dims|]. simpl. split; [|split; [lia|by left]].
        intros i j Hi Hj. split; [lia|]. intros _. by apply cell_replicate.
      + intros i st Hi Hv. apply lcs_row_visited; [lia|done].
    - simpl. lia. }
  split.
  - intros i j Hi Hj. by apply Hu.
  - destruct Ha as [?|(i & j & Hi & Hj & _ & E)]; [by left|right]. by exists i, j.
Qed.

End LcsTable.

Lemma lcs_longest_sym s1 s2 : lcs_longest s1 s2 = lcs_longest s2 s1.
Proof.
  eapply longest_common_unique; [apply lcs_longest_spec|].
  apply longest_common_sym, lcs_longest_spec.
Qed.

Lemma lcs_longest_refl s : lcs_longest s s = length s.
Proof.
  eapply longest_common_unique; [apply lcs_longest_spec|apply longest_common_refl].
Qed.

Lemma lcs_longest_bound s1 s2 : lcs_longest s1 s2 ≤ Nat.min (length s1) (length s2).
Proof. apply longest_common_bound, lcs_longest_spec. Qed.

Lemma lcs_sym s1 s2 : lcs s1 s2 = lcs s2 s1.
Proof. unfold lcs. by rewrite Nat.max_comm, lcs_longest_sym. Qed.

(** ** The token sets *)

Lemma jaccard_inter_size a b :
  jaccard_inter a b = size (token_set a ∩ token_set b).
Proof.
  unfold jaccard_inter, size, set_size. simpl. apply Permutation_length.
  apply NoDup_Permutation.
  - apply NoDup_filter, NoDup_elements.
  - apply NoDup_elements.
  - intros x. rewrite list_elem_of_filter, !elem_of_elements, elem_of_intersection. tauto.
Qed.

Lemma jaccard_union_size a b :
  jaccard_union a b = size (token_set a ∪ token_set b).
Proof.
  unfold jaccard_union. by rewrite list_to_set_app_L, !list_to_set_elements_L.
Qed.

Lemma jaccard_sym a b : jaccard a b = jaccard b a.
Proof.
  unfold jaccard. rewrite !jaccard_inter_size, !jaccard_union_size.
  assert (token_set b ∩ token_set a = token_set a ∩ token_set b) as ->
    by apply (comm_L (∩)).
  assert (token_set b ∪ token_set a = token_set a ∪ token_set b) as ->
    by apply (comm_L (∪)).
  done.
Qed.

Lemma jaccard_inter_le_union a b : jaccard_inter a b ≤ jaccard_union a b.
Proof.
  rewrite jaccard_inter_size, jaccard_union_size. apply subseteq_size.
  intros x [Hx _]%elem_of_intersection. apply elem_of_union. by left.
Qed.

Lemma jaccard_refl_inter a : jaccard_inter a a = size (token_set a).
Proof. rewrite jaccard_inter_size. f_equal. apply (idemp_L (∩)). Qed.

Lemma jaccard_refl_union a : jaccard_union a a = size (token_set a).
Proof. rewrite jaccard_union_size. f_equal. apply (idemp_L (∪)). Qed.

Lemma token_set_size_pos a : tokenize a ≠ [] → 0 < size (token_set a).
Proof.
  intros Ht. destruct (tokenize a) as [|t ts] eqn:E; [done|].
  assert (t ∈ token_set a) as Hin.
  { unfold token_set. rewrite E. apply elem_of_list_to_set, list_elem_of_here. }
  destruct (size (token_set a)) eqn:Es; [|lia].
  apply size_empty_iff in Es. rewrite Es in Hin. by apply elem_of_empty in Hin.
Qed.

Lemma token_set_size_le a : size (token_set a) ≤ length (tokenize a).
Proof.
  unfold token_set, size, set_size. simpl.
  induction (tokenize a) as [|t ts IH]; simpl.
  - by rewrite elements_empty.
  - destruct (decide (t ∈ (list_to_set ts : gset jsstring))) as [Hin|Hnin].
    + rewrite (subseteq_union_1_L {[t]}) by (by apply singleton_subseteq_l). lia.
    + rewrite elements_union_singleton by done. simpl. lia.
Qed.

(** ** Symmetry *)

Lemma levScore_sym a b : levScore a b = levScore b a.
Proof. unfold levScore. by rewrite !levenshtein_lev, lev_sym, Nat.max_comm. Qed.

Lemma confidence_sym a b : confidence a b = confidence b a.
Proof. unfold confidence. by rewrite levScore_sym, jaccard_sym, lcs_sym. Qed.

Lemma compareStrings_sym `{Runtime} a b : compareStrings a b = compareStrings b a.
Proof.
  unfold compareStrings. rewrite orb_comm. destruct (_ || _); [done|].
  by rewrite confidence_sym.
Qed.

Lemma structuralBonus_sym a b : structuralBonus a b = structuralBonus b a.
Proof.
  rewrite !structuralBonus_eq_spec. unfold structuralBonus_spec.
  destruct (last (space_tokens a)) as [al|], (last (space_tokens b)) as [bl|],
    (head (space_tokens a)) as [af|], (head (space_tokens b)) as [bf|]; try done.
  rewrite (bool_decide_ext (al = bl) (bl = al)) by done.
  by rewrite (bool_decide_ext (head af = head bf) (head bf = head af)) by done.
Qed.

(** C8: the name comparison is symmetric, as the string similarity of the
    sanitized names and the structural bonus both are. *)
Theorem compareNames_sym `{Runtime} (a b : jsval) :
  compareNames a b = compareNames b a
  ∧ (∀ x y, compareStrings x y = compareStrings y x)
  ∧ (∀ x y, structuralBonus x y = structuralBonus y x).
Proof.
  split; [|split; [apply compareStrings_sym|apply structuralBonus_sym]].
  unfold compareNames. simpl.
  by rewrite compareStrings_sym, structuralBonus_sym.
Qed.

(** ** The sub-scores are numbers between 0 and 1 *)

(** The quotient of two counters, the smaller by the larger. *)
Lemma div_counters (a b : nat) :
  a ≤ b → 0 < b → (Z.of_nat b < 2 ^ 53)%Z →
  fine (Num.div (Num.of_nat a) (Num.of_nat b))
  ∧ (val (Num.div (Num.of_nat a) (Num.of_nat b)) ≤ val Num.one)%Z
  ∧ (a = b → Num.div (Num.of_nat a) (Num.of_nat b) = Num.one)
  ∧ (a = 0 → Num.div (Num.of_nat a) (Num.of_nat b) = Num.zero).
Proof.
  intros Hab Hb Hlt. unfold Num.of_nat.
  destruct (Z.of_nat b) as [|pb|pb] eqn:Eb; [lia| |lia].
  destruct (of_Z_pos pb Hlt) as (mb & eb & Hfb & Heb & Hmb & Hbb).
  destruct (of_Z_pos_normal pb Hlt) as [Hnb Hvb].
  destruct (Z.of_nat a) as [|pa|pa] eqn:Ea; [|destruct (decide (a = b)) as [->|Hne]|lia].
  - rewrite Hfb. split; [done|]. split; [done|]. split; [lia|done].
  - assert (pa = pb) as -> by lia. rewrite Hfb, div_self.
    split; [by vm_compute|]. split; [lia|]. split; [done|lia].
  - assert (Z.pos pa < Z.pos pb)%Z as Hlt' by lia.
    destruct (of_Z_pos pa ltac:(lia)) as (ma & ea & Hfa & Hea & Hma & Hba).
    destruct (of_Z_pos_normal pa ltac:(lia)) as [Hna Hva].
    rewrite Hfa, Hfb in *.
    destruct (div_lt_one ma ea mb eb Hna Hnb ltac:(lia)) as [Hf Hv].
    { rewrite Hva, Hvb. apply Z.mul_lt_mono_pos_r; [by vm_compute|done]. }
    split; [done|]. split; [by rewrite val_one|]. split; lia.
Qed.

Lemma filter_Boolean_length pieces :
  length (filter_Boolean pieces) ≤ length (concat pieces).
Proof.
  induction pieces as [|p pieces IH]; [done|].
  unfold filter_Boolean in *. simpl concat. rewrite length_app.
  destruct p as [|c p].
  - rewrite filter_cons_False by done. simpl. lia.
  - rewrite filter_cons_True by done. simpl. lia.
Qed.

Lemma split_runs_from_length cls cur insep s :
  length (concat (split_runs_from cls cur insep s)) ≤ length cur + length s.
Proof.
  revert cur insep. induction s as [|c s IH]; intros cur insep; simpl.
  - rewrite app_nil_r. lia.
  - destruct (cls c); [destruct insep|].
    + specialize (IH cur true). lia.
    + simpl. rewrite length_app. specialize (IH [] true). simpl in IH. lia.
    + specialize (IH (cur ++ [c]) false). rewrite length_app in IH. simpl in IH. lia.
Qed.

Lemma tokenize_length str : length (tokenize str) ≤ length str.
Proof.
  unfold tokenize. etrans; [apply filter_Boolean_length|].
  etrans; [apply split_runs_from_length|]. simpl. lia.
Qed.

Lemma token_set_size_length str : size (token_set str) ≤ length str.
Proof. etrans; [apply token_set_size_le|apply tokenize_length]. Qed.

Lemma jaccard_union_le a b : jaccard_union a b ≤ length a + length b.
Proof.
  rewrite jaccard_union_size, size_union_alt.
  pose proof (token_set_size_length a). pose proof (token_set_size_length b).
  assert (size (token_set b ∖ token_set a) ≤ size (token_set b)); [|lia].
  apply subseteq_size. intros x [Hx _]%elem_of_difference. done.
Qed.

Section Scores.
Variables a b : jsstring.
Hypothesis Hlen : (Z.of_nat (length a + length b) < 2 ^ 53)%Z.
Hypothesis Hne : 0 < Nat.max (length a) (length b).

Lemma levScore_good : good (levScore a b).
Proof.
  unfold levScore.
  destruct (div_counters (levenshtein a b) (Nat.max (length a) (length b)))
    as (Hf & Hv & _); [rewrite levenshtein_lev; apply lev_bound|done|lia|].
  apply sub_one_good; [done|]. by rewrite <- val_one.
Qed.

Lemma jaccard_good : good (jaccard a b).
Proof.
  unfold jaccard. pose proof (jaccard_inter_le_union a b).
  pose proof (jaccard_union_le a b).
  destruct (jaccard_union a b) as [|u] eqn:E; [by left|].
  left. apply div_counters; lia.
Qed.

Lemma lcs_good : good (lcs a b).
Proof.
  unfold lcs. pose proof (lcs_longest_bound a b).
  destruct (Nat.max (length a) (length b)) as [|mx] eqn:E; [by left|].
  left. apply div_counters; lia.
Qed.

Lemma confidence_good : good (confidence a b).
Proof.
  unfold confidence.
  assert (∀ m k, normal (Num.dec (Z.pos m) k) → ∀ x, good x → good (Num.mul x (Num.dec (Z.pos m) k)))
    as Hmul by (intros; by apply mul_good).
  repeat apply add_good; apply Hmul;
    first [apply levScore_good|apply jaccard_good|apply lcs_good|by vm_compute].
Qed.

End Scores.

(** Clamping a number that is not NaN and not negative. *)
Lemma min_one_fine x :
  good x →
  fine (Num.min Num.one x) ∧ (val (Num.min Num.one x) ≤ val Num.one)%Z
  ∧ (∀ y, val y ≤ val Num.one → val y ≤ val x → val y ≤ val (Num.min Num.one x))%Z.
Proof.
  intros Hx. unfold Num.min.
  assert (good Num.one) as Hone by (left; by vm_compute).
  rewrite (compare_val_good Num.one x Hone Hx).
  destruct (Z.compare_spec (val Num.one) (val x)) as [Heq|Hlt|Hgt].
  - split; [by vm_compute|]. split; [done|]. by intros.
  - split; [by vm_compute|]. split; [done|]. by intros.
  - split; [|split; [lia|by intros]].
    destruct Hx as [Hx| ->]; [done|]. exfalso. rewrite val_one in Hgt.
    change (val (S754_infinity false)) with (2 ^ (1024 - emin))%Z in Hgt.
    assert (2 ^ (- emin) < 2 ^ (1024 - emin))%Z by (apply Z.pow_lt_mono_r; flia). lia.
Qed.

Lemma max_zero_fine x : fine x → Num.max Num.zero x = x.
Proof. intros Hx. apply max_zero_id. by destruct x as [[]|[]| |[] m e]. Qed.

Lemma clamp01_fine x :
  good x → fine (clamp01 x) ∧ (val (clamp01 x) ≤ val Num.one)%Z.
Proof.
  intros Hx. unfold clamp01. destruct (min_one_fine x Hx) as (Hf & Hv & _).
  by rewrite max_zero_fine.
Qed.

Section Range.
Context `{Runtime}.

(** [compareStrings] returns a number between 0 and 1 unless both strings
    are non-empty and nothing but white space. *)
Lemma compareStrings_fine (x y : jsval) :
  (truthy x = true → truthy y = true →
   0 < Nat.max (length (normalize (receiver x))) (length (normalize (receiver y)))) →
  (Z.of_nat (length (normalize (receiver x)) + length (normalize (receiver y))) < 2 ^ 53)%Z →
  fine (compareStrings x y) ∧ (val (compareStrings x y) ≤ val Num.one)%Z.
Proof.
  intros Hne Hlen. unfold compareStrings.
  destruct (truthy x) eqn:Hx, (truthy y) eqn:Hy; simpl; try done.
  apply clamp01_fine, confidence_good; [done|by apply Hne].
Qed.

End Range.

(** ** compareStrings on equal strings *)

Lemma sub_one_zero : Num.sub Num.one Num.zero = Num.one.
Proof. done. Qed.

Lemma blend_ones :
  clamp01
    (Num.add
       (Num.add (Num.mul Num.one (Num.dec 5 1)) (Num.mul Num.one (Num.dec 3 1)))
       (Num.mul Num.one (Num.dec 2 1)))
  = Num.one.
Proof. by vm_compute. Qed.




(** ** compareStrings on white space *)

(** C1 fails on the code: for two strings of white space the guard of
    line 22 lets them pass, both trim to the empty string, and the
    unguarded division of line 46 is 0/0: the result is NaN, which is
    not within [0, 1]. *)
Theorem compareStrings_whitespace_nan :
  truthy (JStr (js " ")) = true
  ∧ compareStrings (JStr (js " ")) (JStr (js " ")) = S754_nan
  ∧ Num.leb Num.zero (compareStrings (JStr (js " ")) (JStr (js " "))) = false
  ∧ Num.leb (compareStrings (JStr (js " ")) (JStr (js " "))) Num.one = false.
Proof. by vm_compute. Qed.

(** ** compareNames and the base score *)

Lemma sanitizeName_trim `{Runtime} (s : jsval) : trim (sanitizeName s) = sanitizeName s.
Proof.
  destruct (truthy s) eqn:Hs.
  - destruct (sanitizeName_tokens s Hs) as [-> Hg].
    pose proof (outer_space_join _ Hg) as Ho. unfold outer_space in Ho.
    apply orb_false_elim in Ho as [? ?]. by apply trim_id.
  - unfold sanitizeName. by rewrite Hs.
Qed.

Lemma sanitizeName_normalize `{Runtime} (s : jsval) :
  sanitizeName s ≠ [] → normalize (sanitizeName s) ≠ [].
Proof.
  intros Hs. unfold normalize. apply toLowerCase_keeps_text.
  by rewrite sanitizeName_trim.
Qed.

Lemma structuralBonus_fine x y : fine (structuralBonus x y).
Proof.
  pose proof (structuralBonus_values x y) as Hv.
  rewrite !elem_of_cons, elem_of_nil in Hv.
  destruct Hv as [->|[->|[->|[->|[]]]]]; by vm_compute.
Qed.

(** C10: the name score is never below the string similarity of the two
    sanitized names. (The strings are shorter than 2^53 code units, as every
    string of the language is.) *)
Theorem compareNames_ge_base `{Runtime} (a b : jsval) :
  (Z.of_nat (length (normalize (sanitizeName a))
             + length (normalize (sanitizeName b))) < 2 ^ 53)%Z →
  Num.geb (compareNames a b)
          (compareStrings (JStr (sanitizeName a)) (JStr (sanitizeName b)))
  = true.
Proof.
  intros Hlen. rewrite compareNames_eq.
  set (base := compareStrings _ _). set (bonus := structuralBonus _ _).
  assert (fine base ∧ (val base ≤ val Num.one)%Z) as [Hf Hv].
  { apply compareStrings_fine; [|done]. simpl. intros Ha _.
    assert (normalize (sanitizeName a) ≠ []) as Hn.
    { apply sanitizeName_normalize. by destruct (sanitizeName a). }
    destruct (normalize (sanitizeName a)); [done|simpl; lia]. }
  destruct (add_good base bonus) as (Hg & Hlow & _);
    [by left|left; apply structuralBonus_fine|].
  destruct (min_one_fine _ Hg) as (Hfr & _ & Hmin).
  specialize (Hmin base Hv Hlow).
  unfold Num.geb, SFleb. rewrite compare_val by done.
  by destruct (Z.compare_spec (val base) (val (Num.min Num.one (Num.add base bonus))));
    [..|lia].
Qed.

Lemma compareNames_ge_base_witness :
  Num.geb (compareNames (JStr (js "Dr. John A. Smith, Jr.")) (JStr (js "John Smith")))
          (compareStrings (JStr (sanitizeName (JStr (js "Dr. John A. Smith, Jr."))))
                          (JStr (sanitizeName (JStr (js "John Smith")))))
  = true.
Proof. apply compareNames_ge_base. by vm_compute. Defined.
(** ** More on the edit distance *)

Lemma edit_path_app n m s t u :
  edit_path n s t → edit_path m t u → edit_path (n + m) s u.
Proof.
  induction 1 as [s|n s t' t Hst Htu IH]; intros Hu; [done|].
  simpl. eapply path_step; [done|]. by apply IH.
Qed.

Lemma edit_step_length s t :
  edit_step s t → length s ≤ S (length t) ∧ length t ≤ S (length s).
Proof. induction 1; simpl; lia. Qed.

Lemma edit_path_length n s t :
  edit_path n s t → length s ≤ n + length t ∧ length t ≤ n + length s.
Proof.
  induction 1 as [s|n s t u Hst Htu IH]; [lia|].
  apply edit_step_length in Hst. lia.
Qed.

Lemma lev_zero s t : lev s t = 0 → s = t.
Proof.
  intros H0. pose proof (lev_path s t) as Hp. rewrite H0 in Hp. by inversion Hp.
Qed.

Lemma lev_triangle s t u : lev s u ≤ lev s t + lev t u.
Proof. apply lev_lower_bound. eapply edit_path_app; apply lev_path. Qed.

Lemma lev_length s t :
  Nat.max (length s) (length t) - Nat.min (length s) (length t) ≤ lev s t.
Proof. pose proof (edit_path_length _ _ _ (lev_path s t)). lia. Qed.

(** X1: the distance that [levenshtein] (lines 27-44) returns is a metric
    on strings: it is 0 exactly for equal strings, it does not depend on
    the order of its arguments, and it obeys the triangle inequality. *)
Theorem levenshtein_metric (a b c : jsstring) :
  (levenshtein a b = 0 ↔ a = b)
  ∧ levenshtein a b = levenshtein b a
  ∧ levenshtein a c ≤ levenshtein a b + levenshtein b c.
Proof.
  rewrite !levenshtein_lev. split; [|split].
  - split; [apply lev_zero|intros ->; apply lev_refl].
  - apply lev_sym.
  - apply lev_triangle.
Qed.

(** X2: the distance that [levenshtein] returns is at least the
    difference of the two lengths and at most the larger length, so that
    [lev / Math.max(a.length, b.length)] (line 46) never exceeds 1. *)
Theorem levenshtein_bounds (a b : jsstring) :
  Nat.max (length a) (length b) - Nat.min (length a) (length b) ≤ levenshtein a b
  ∧ levenshtein a b ≤ Nat.max (length a) (length b).
Proof.
  rewrite levenshtein_lev. split; [apply lev_length|apply lev_bound].
Qed.

Lemma lev_table_cells (s1 s2 : jsstring) j i :
  j ≤ length s2 → i ≤ length s1 →
  rd None (lev_table s1 s2) j i = Some (lev (take i s1) (take j s2)).
Proof.
  intros Hj Hi. destruct (lev_table_filled s1 s2) as [_ Hc].
  rewrite rd_cell, Hc by done. simpl. by rewrite lev_reverse.
Qed.

(** X3: when the loops of [levenshtein] are done, no cell of the table is
    left [null]: the cell [dp[j][i]] holds the edit distance between the
    first [i] characters of [s1] and the first [j] characters of [s2]. *)
Theorem lev_table_prefixes (s1 s2 : jsstring) (j i : nat) :
  j ≤ length s2 → i ≤ length s1 →
  ∃ d, rd None (lev_table s1 s2) j i = Some d
       ∧ edit_distance (take i s1) (take j s2) d.
Proof.
  intros Hj Hi. eexists. split; [by apply lev_table_cells|apply lev_edit_distance].
Qed.

Lemma lev_table_prefixes_witness :
  ∃ d, rd None (lev_table (js "kitten") (js "sitting")) 7 6 = Some d
       ∧ edit_distance (take 6 (js "kitten")) (take 7 (js "sitting")) d.
Proof. apply lev_table_prefixes; simpl; lia. Defined.

(** ** The longest common substring, in terms of blocks *)

(** The [n] characters of [s] that end at position [i]. *)
Lemma common_suffix_lookup s1 s2 i j k :
  i < length s1 → k < common_suffix s1 s2 i j →
  k ≤ i ∧ k ≤ j ∧ s1 !! (i - k) = s2 !! (j - k).
Proof.
  revert j k. induction i as [|i IH]; intros j k Hi Hk;
    rewrite common_suffix_unfold in Hk.
  - destruct (decide (s1 !! 0 = s2 !! j)) as [Heq|Hne];
      [rewrite bool_decide_eq_true_2 in Hk by done
      |rewrite bool_decide_eq_false_2 in Hk by done; lia].
    assert (k = 0) as -> by lia. rewrite !Nat.sub_0_r.
    split; [lia|]. split; [lia|done].
  - destruct (decide (s1 !! S i = s2 !! j)) as [Heq|Hne];
      [rewrite bool_decide_eq_true_2 in Hk by done
      |rewrite bool_decide_eq_false_2 in Hk by done; lia].
    destruct k as [|k]; [rewrite !Nat.sub_0_r; split; [lia|split; [lia|done]]|].
    destruct j as [|j]; [lia|].
    destruct (IH j k ltac:(lia) ltac:(lia)) as (? & ? & ?).
    split; [lia|]. split; [lia|]. done.
Qed.

Lemma common_suffix_ge s1 s2 i j n :
  i < length s1 → j < length s2 → n ≤ S i → n ≤ S j →
  (∀ k, k < n → s1 !! (i - k) = s2 !! (j - k)) →
  n ≤ common_suffix s1 s2 i j.
Proof.
  revert j n. induction i as [|i IH]; intros j n Hi Hj Hni Hnj Hk;
    (destruct n as [|n]; [lia|]);
    rewrite common_suffix_unfold;
    pose proof (Hk 0 ltac:(lia)) as H0; rewrite !Nat.sub_0_r in H0;
    rewrite bool_decide_eq_true_2 by done; [lia|].
  destruct j as [|j]; [lia|].
  apply le_n_S, IH; [lia..|].
  intros k Hlt. specialize (Hk (S k) ltac:(lia)). done.
Qed.

Lemma substring_block (s : jsstring) i n :
  n ≤ S i → i < length s → substring (take n (drop (S i - n) s)) s.
Proof.
  intros Hn Hi. exists (take (S i - n) s), (drop n (drop (S i - n) s)).
  by rewrite take_drop, take_drop.
Qed.

Lemma common_suffix_block s1 s2 i j :
  i < length s1 → j < length s2 →
  let n := common_suffix s1 s2 i j in
  take n (drop (S i - n) s1) = take n (drop (S j - n) s2).
Proof.
  intros Hi Hj n. pose proof (common_suffix_bound s1 s2 i j) as Hb. fold n in Hb.
  apply list_eq. intros k.
  destruct (decide (k < n)) as [Hk|Hk].
  - rewrite !lookup_take_lt, !lookup_drop by done.
    destruct (common_suffix_lookup s1 s2 i j (n - 1 - k) Hi ltac:(lia)) as (_ & _ & Heq).
    replace (S i - n + k) with (i - (n - 1 - k)) by lia.
    by replace (S j - n + k) with (j - (n - 1 - k)) by lia.
  - by rewrite !lookup_take_ge by lia.
Qed.

Lemma lcs_longest_block (a b : jsstring) :
  ∃ w, substring w a ∧ substring w b ∧ length w = lcs_longest a b.
Proof.
  destruct (lcs_longest_spec a b) as [_ [H0|(i & j & Hi & Hj & Hn)]].
  - exists []. rewrite H0. split; [by exists [], a|]. split; [by exists [], b|done].
  - pose proof (common_suffix_bound a b i j) as Hb.
    pose proof (common_suffix_block a b i j Hi Hj) as Heq. simpl in Heq.
    rewrite Hn in *.
    exists (take (lcs_longest a b) (drop (S i - lcs_longest a b) a)).
    split; [apply substring_block; lia|]. split.
    + rewrite Heq. apply substring_block; lia.
    + rewrite length_take, length_drop. lia.
Qed.

Lemma lcs_longest_max (a b w : jsstring) :
  substring w a → substring w b → length w ≤ lcs_longest a b.
Proof.
  intros (p & q & ->) (p' & q' & ->).
  destruct (lcs_longest_spec (p ++ w ++ q) (p' ++ w ++ q')) as [Hmax _].
  destruct w as [|c w]; [simpl; lia|].
  set (n := length (c :: w)).
  assert (0 < n) by (unfold n; simpl; lia).
  etrans; [|apply (Hmax (length p + n - 1) (length p' + n - 1));
             rewrite !length_app; fold n; lia].
  apply common_suffix_ge; try (rewrite !length_app; fold n; lia); try lia.
  intros k Hk.
  rewrite (lookup_app_r p), (lookup_app_r p') by lia.
  replace (length p + n - 1 - k - length p) with (n - 1 - k) by lia.
  replace (length p' + n - 1 - k - length p') with (n - 1 - k) by lia.
  rewrite !lookup_app_l by (fold n; lia). done.
Qed.

(** X4: the variable [longest] of [lcs] (lines 57-73) ends as the length
    of a longest common substring: some block of consecutive characters of
    that length occurs in both strings, and no longer block does. *)
Theorem lcs_longest_substring (a b : jsstring) :
  (∃ w, substring w a ∧ substring w b ∧ length w = lcs_longest a b)
  ∧ ∀ w, substring w a → substring w b → length w ≤ lcs_longest a b.
Proof. split; [apply lcs_longest_block|apply lcs_longest_max]. Qed.

(** ** The word tokens *)

Lemma split_runs_from_words cur insep s :
  Forall (λ c, is_word c = true) cur →
  Forall (Forall (λ c, is_word c = true)) (split_runs_from is_nonword cur insep s).
Proof.
  revert cur insep. induction s as [|c s IH]; intros cur insep Hcur; simpl.
  - by constructor.
  - unfold is_nonword at 1. destruct (is_word c) eqn:Hc; simpl.
    + apply IH. apply Forall_app. by split; [|constructor].
    + destruct insep; [by apply IH|]. constructor; [done|]. by apply IH.
Qed.

Lemma split_runs_from_concat cur insep s :
  concat (split_runs_from is_nonword cur insep s)
  = cur ++ filter (λ c, is_word c = true) s.
Proof.
  revert cur insep. induction s as [|c s IH]; intros cur insep.
  - simpl. by rewrite filter_nil.
  - cbn [split_runs_from]. unfold is_nonword at 1. rewrite filter_cons.
    destruct (is_word c) eqn:Hc; cbn [negb].
    + rewrite IH, <- app_assoc. by rewrite decide_True.
    + rewrite decide_False by done.
      destruct insep; [by rewrite IH|].
      cbn [concat]. by rewrite IH.
Qed.

Lemma concat_filter_Boolean pieces : concat (filter_Boolean pieces) = concat pieces.
Proof.
  unfold filter_Boolean. induction pieces as [|p ps IH]; [done|].
  rewrite filter_cons.
  destruct (decide (truthy_str p = true)) as [Hp|Hp]; simpl; rewrite IH; [done|].
  by destruct p.
Qed.

Lemma tokenize_concat s : concat (tokenize s) = filter (λ c, is_word c = true) s.
Proof.
  unfold tokenize, split_runs. by rewrite concat_filter_Boolean, split_runs_from_concat.
Qed.

Lemma tokenize_Forall s :
  Forall (λ t, t ≠ [] ∧ Forall (λ c, is_word c = true) t) (tokenize s).
Proof.
  unfold tokenize, split_runs, filter_Boolean.
  apply Forall_forall. intros t [Ht Hin]%list_elem_of_filter. split.
  - by destruct t.
  - pose proof (split_runs_from_words [] false s ltac:(constructor)) as Hw.
    by apply (proj1 (Forall_forall _ _) Hw).
Qed.

Lemma tokenize_units s t c : t ∈ tokenize s → c ∈ t → c ∈ s.
Proof.
  intros Ht Hc.
  assert (c ∈ concat (tokenize s)) as Hin.
  { apply list_elem_of_In, in_concat. exists t. by rewrite <- !list_elem_of_In. }
  rewrite tokenize_concat in Hin. by apply list_elem_of_filter in Hin as [_ ?].
Qed.

(** X6: [tokenize] (line 49) returns non-empty tokens that consist of
    word characters [A-Za-z0-9_] only, and the tokens in a row are the
    word characters of the string, in their order: nothing but the
    separators is lost. *)
Theorem tokenize_words (s : jsstring) :
  Forall (λ t, t ≠ [] ∧ Forall (λ c, is_word c = true) t) (tokenize s)
  ∧ concat (tokenize s) = filter (λ c, is_word c = true) s.
Proof. split; [apply tokenize_Forall|apply tokenize_concat]. Qed.

Local Open Scope Z_scope.

(** ** Quotients strictly between 0 and 1 *)

Lemma div_inside mx ex my ey :
  normal (S754_finite false mx ex) → normal (S754_finite false my ey) →
  ey - ex ≤ 1021 →
  val (S754_finite false mx ex) * 2 ^ 53 < val (S754_finite false my ey) * (2 ^ 53 - 1) →
  0 < val (Num.div (S754_finite false mx ex) (S754_finite false my ey)) < 2 ^ (- emin).
Proof.
  intros Hx Hy Hgap Hlt.
  pose proof (normal_digits _ _ Hx) as Hdx. pose proof (normal_digits _ _ Hy) as Hdy.
  assert (val (S754_finite false mx ex) < val (S754_finite false my ey)) as Hlt'.
  { pose proof (val_nonneg (S754_finite false my ey)).
    pose proof (val_nonneg (S754_finite false mx ex)).
    change (2 ^ 53) with 9007199254740992 in Hlt. lia. }
  assert (ex ≤ ey) as Hle.
  { destruct (Z.le_gt_cases ex ey) as [|Hgt]; [done|].
    pose proof (val_lt_exponent _ _ _ _ (normal_fine _ Hy) (normal_fine _ Hx) Hgt). lia. }
  apply normal_finite in Hx as (Hex & Hmx), Hy as (Hey & Hmy).
  rewrite !val_finite in Hlt.
  unfold Num.div, SFdiv, SFdiv_core_binary. cbn [xorb]. rewrite Hdx, Hdy, fexp_eq.
  set (z := ex - ey).
  replace (53 + ex - (53 + ey)) with z by lia.
  replace (Z.min (Z.max (z - 53) emin) z) with (z - 53) by flia.
  replace (z - (z - 53)) with 53 by lia.
  rewrite Z.shiftl_mul_pow2 by lia.
  pose proof (Z.div_eucl_eq (Z.pos mx * 2 ^ 53) (Z.pos my) ltac:(lia)) as Heq.
  pose proof (Z.mod_pos_bound (Z.pos mx * 2 ^ 53) (Z.pos my) ltac:(lia)) as Hmod.
  unfold Z.modulo in Hmod.
  destruct (Z.div_eucl (Z.pos mx * 2 ^ 53) (Z.pos my)) as [q r].
  assert (2 ^ 52 ≤ q) as Hq1.
  { change (2 ^ 53) with (2 * 2 ^ 52) in *. nia. }
  assert (q < 2 ^ 54) as Hq2.
  { change (2 ^ 54) with (4 * 2 ^ 52). change (2 ^ 53) with (2 * 2 ^ 52) in *. nia. }
  pose proof (pow2_pos (- z) ltac:(lia)) as Hpz.
  pose proof (pow2_pos (ex - emin) ltac:(flia)) as Hpe.
  assert (Z.pos mx * 2 ^ 53 < Z.pos my * (2 ^ (53 - z) - 2 ^ (- z))) as Hv.
  { replace (ey - emin) with (- z + (ex - emin)) in Hlt by lia.
    rewrite pow2_split in Hlt by flia.
    replace (53 - z) with (- z + 53) by lia. rewrite pow2_split by lia.
    apply (Z.mul_lt_mono_pos_r (2 ^ (ex - emin))); [done|]. lia. }
  assert (q < 2 ^ (53 - z) - 2 ^ (- z)) as Hq3 by nia.
  pose proof (Zdigits2_ge q 52 ltac:(lia) Hq1) as Hd1.
  pose proof (Zdigits2_le q 54 ltac:(lia) ltac:(lia) Hq2) as Hd2.
  set (k := fexp Num.prec Num.emax (Zdigits2 q + (z - 53)) - (z - 53)).
  assert (k = Zdigits2 q - 53) as Hk by (unfold k; rewrite fexp_eq; flia).
  assert (k ≤ - z) as Hkz.
  { destruct (Z.eq_dec z 0) as [Hz|Hz]; [|lia].
    rewrite Hz in Hq3. change (53 - 0) with 53 in Hq3.
    pose proof (Zdigits2_le q 53 ltac:(lia) ltac:(lia) ltac:(lia)). lia. }
  destruct (round_aux_good q (z - 53) (new_location (Z.pos my) r) ltac:(lia))
    as (Hg & Hup & Hlow); [fold k; lia|]. fold k in Hup.
  set (res := binary_round_aux _ _ _ _ _ _) in *.
  split.
  - assert (fine (S754_finite false 1 emin)) as Hone by (by apply fine_finite).
    specialize (Hlow ltac:(flia) _ Hone). rewrite val_finite in Hlow.
    replace (emin - emin) with 0 in Hlow by lia.
    pose proof (pow2_pos (z - 53 - emin) ltac:(flia)).
    assert (1 * 2 ^ 0 ≤ q * 2 ^ (z - 53 - emin)) as Hq by (change (2 ^ 0) with 1; nia).
    specialize (Hlow Hq). change (1 * 2 ^ 0) with 1 in Hlow. lia.
  - eapply Z.le_lt_trans; [exact Hup|].
    pose proof (pow2_pos (z - 53 + k - emin) ltac:(flia)) as Hpu.
    replace (- emin) with ((53 - z - k) + (z - 53 + k - emin)) by lia.
    rewrite pow2_split by flia.
    apply Z.mul_lt_mono_pos_r; [done|].
    assert (q / 2 ^ k < 2 ^ (53 - z - k) - 1); [|lia].
    apply Z.div_lt_upper_bound; [apply pow2_pos; lia|].
    rewrite Z.mul_sub_distr_l, <- pow2_split by lia.
    replace (k + (53 - z - k)) with (53 - z) by lia.
    assert (2 ^ k ≤ 2 ^ (- z)) by (apply Z.pow_le_mono_r; lia). lia.
Qed.

Lemma div_counters_inside (a b : nat) :
  (0 < a)%nat → (a < b)%nat → Z.of_nat b < 2 ^ 53 →
  0 < val (Num.div (Num.of_nat a) (Num.of_nat b)) < val Num.one.
Proof.
  intros Ha Hab Hlt. unfold Num.of_nat.
  destruct (Z.of_nat b) as [|pb|pb] eqn:Eb; [lia| |lia].
  destruct (Z.of_nat a) as [|pa|pa] eqn:Ea; [lia| |lia].
  destruct (of_Z_pos pb Hlt) as (mb & eb & Hfb & Heb & Hmb & Hbb).
  destruct (of_Z_pos_normal pb Hlt) as [Hnb Hvb].
  destruct (of_Z_pos pa ltac:(lia)) as (ma & ea & Hfa & Hea & Hma & Hba).
  destruct (of_Z_pos_normal pa ltac:(lia)) as [Hna Hva].
  rewrite Hfa, Hfb, val_one in *.
  apply div_inside; [done|done|lia|].
  rewrite Hva, Hvb.
  pose proof (pow2_pos (- emin) ltac:(flia)).
  change (2 ^ 53) with 9007199254740992 in *. nia.
Qed.
Local Close Scope Z_scope.
(** ** The token score at its ends *)

Lemma val_lt_ne x y : (val x < val y)%Z → x ≠ y.
Proof. intros Hlt ->. lia. Qed.

Lemma meet_join_same (A B : gset jsstring) :
  size (A ∩ B) = size (A ∪ B) → A = B.
Proof.
  intros Hs.
  assert (A ∩ B = A ∪ B) as Heq.
  { apply set_subseteq_size_eq; [|lia].
    intros x [Hx _]%elem_of_intersection. apply elem_of_union. by left. }
  apply set_eq. intros x. split; intros Hx.
  - assert (x ∈ A ∩ B) as [_ ?]%elem_of_intersection; [|done].
    rewrite Heq. apply elem_of_union. by left.
  - assert (x ∈ A ∩ B) as [? _]%elem_of_intersection; [|done].
    rewrite Heq. apply elem_of_union. by right.
Qed.

Lemma jaccard_one a b :
  (Z.of_nat (length a + length b) < 2 ^ 53)%Z →
  jaccard a b = Num.one ↔ token_set a = token_set b ∧ token_set a ≠ ∅.
Proof.
  intros Hlen. unfold jaccard.
  pose proof (jaccard_inter_le_union a b) as Hle.
  pose proof (jaccard_union_le a b) as Hu.
  rewrite jaccard_inter_size, jaccard_union_size in *.
  destruct (size (token_set a ∪ token_set b)) as [|u] eqn:Eu.
  - apply size_empty_inv in Eu. apply leibniz_equiv in Eu.
    split; [done|]. intros [_ Hne]. destruct Hne.
    apply set_eq. intros x. split; [|by intros ?%elem_of_empty].
    intros Hx. rewrite <- Eu. apply elem_of_union. by left.
  - split.
    + intros Hone.
      destruct (decide (size (token_set a ∩ token_set b) = S u)) as [Heq|Hne].
      * rewrite <- Eu in Heq. apply meet_join_same in Heq. split; [done|].
        intros He. rewrite <- Heq, He in Eu.
        by rewrite (union_idemp_L (∅ : gset jsstring)), size_empty in Eu.
      * exfalso. destruct (size (token_set a ∩ token_set b)) as [|i] eqn:Ei.
        -- destruct (div_counters 0 (S u)) as (_ & _ & _ & H0); [lia..|].
           rewrite H0 in Hone; done.
        -- destruct (div_counters_inside (S i) (S u)) as [_ Hlt]; [lia..|].
           by apply val_lt_ne in Hlt.
    + intros [Heq Hne]. rewrite <- Heq in *.
      rewrite (intersection_idemp_L (token_set a)).
      rewrite (union_idemp_L (token_set a)) in Eu. rewrite Eu.
      destruct (div_counters (S u) (S u)) as (_ & _ & H1 & _); [lia..|]. by apply H1.
Qed.

Lemma jaccard_zero a b :
  (Z.of_nat (length a + length b) < 2 ^ 53)%Z →
  jaccard a b = Num.zero ↔ token_set a ∩ token_set b = ∅.
Proof.
  intros Hlen. unfold jaccard.
  pose proof (jaccard_inter_le_union a b) as Hle.
  pose proof (jaccard_union_le a b) as Hu.
  rewrite jaccard_inter_size, jaccard_union_size in *.
  destruct (size (token_set a ∪ token_set b)) as [|u] eqn:Eu.
  - split; [intros _|done].
    apply leibniz_equiv, size_empty_inv. lia.
  - destruct (size (token_set a ∩ token_set b)) as [|i] eqn:Ei.
    + split; [intros _; by apply leibniz_equiv, size_empty_inv|intros _].
      destruct (div_counters 0 (S u)) as (_ & _ & _ & H0); [lia..|]. by apply H0.
    + split.
      * intros Hz. exfalso.
        destruct (decide (S i = S u)) as [Heq|Hne].
        -- destruct (div_counters (S i) (S u)) as (_ & _ & H1 & _); [lia..|].
           rewrite (H1 Heq) in Hz. done.
        -- destruct (div_counters_inside (S i) (S u)) as [Hpos _]; [lia..|].
           rewrite Hz in Hpos. simpl in Hpos. lia.
      * intros He. rewrite He, size_empty in Ei. done.
Qed.

(** X7: for strings whose lengths sum to less than 2^53, the token score
    (lines 50-54) is 1 exactly when the two strings have the same set of
    tokens and that set is not empty, and 0 exactly when they share no
    token. *)
Theorem jaccard_ends (a b : jsstring) :
  (Z.of_nat (length a + length b) < 2 ^ 53)%Z →
  (jaccard a b = Num.one ↔ token_set a = token_set b ∧ token_set a ≠ ∅)
  ∧ (jaccard a b = Num.zero ↔ token_set a ∩ token_set b = ∅).
Proof. intros Hlen. split; [by apply jaccard_one|by apply jaccard_zero]. Qed.

Lemma jaccard_ends_witness :
  (jaccard (js "hello world") (js "world, hello") = Num.one
   ↔ token_set (js "hello world") = token_set (js "world, hello")
     ∧ token_set (js "hello world") ≠ ∅)
  ∧ (jaccard (js "hello world") (js "world, hello") = Num.zero
     ↔ token_set (js "hello world") ∩ token_set (js "world, hello") = ∅).
Proof. apply jaccard_ends. by vm_compute. Defined.

(** ** compareStrings: the range and the two ends of the scale *)

Lemma fine_between x :
  fine x → (val x ≤ val Num.one)%Z →
  Num.leb Num.zero x = true ∧ Num.leb x Num.one = true.
Proof.
  intros Hf Hv. unfold Num.leb, SFleb.
  rewrite (compare_val Num.zero x), (compare_val x Num.one);
    [|done|by vm_compute|done|done].
  pose proof (val_nonneg x) as H0. change (val Num.zero) with 0%Z. split.
  - by destruct (Z.compare_spec 0 (val x)); [..|lia].
  - by destruct (Z.compare_spec (val x) (val Num.one)); [..|lia].
Qed.

Lemma confidence_same (a : jsstring) :
  tokenize a ≠ [] → (Z.of_nat (length a) < 2 ^ 53)%Z →
  clamp01 (confidence a a) = Num.one.
Proof.
  intros Htok Hlen.
  pose proof (tokenize_length a) as Hn.
  assert (0 < length (tokenize a)) as Hk by (destruct (tokenize a); [done|simpl; lia]).
  pose proof (token_set_size_pos a Htok) as Hs.
  pose proof (token_set_size_length a) as Hs'.
  unfold confidence.
  assert (levScore a a = Num.one) as ->.
  { unfold levScore. rewrite levenshtein_lev, lev_refl, Nat.max_id.
    destruct (div_counters 0 (length a)) as (_ & _ & _ & ->); [lia..|done|done]. }
  assert (jaccard a a = Num.one) as ->.
  { unfold jaccard. rewrite jaccard_refl_inter, jaccard_refl_union.
    destruct (size (token_set a)) as [|k] eqn:E; [lia|].
    destruct (div_counters (S k) (S k)) as (_ & _ & -> & _); [lia..|done|done]. }
  assert (lcs a a = Num.one) as ->.
  { unfold lcs. rewrite lcs_longest_refl, Nat.max_id.
    destruct (length a) as [|n] eqn:E; [lia|].
    destruct (div_counters (S n) (S n)) as (_ & _ & -> & _); [lia..|done|done]. }
  apply blend_ones.
Qed.

Lemma normalize_text `{Runtime} (a : jsstring) : trim a ≠ [] → normalize a ≠ [].
Proof. apply toLowerCase_keeps_text. Qed.

(** X8: when at least one of the two strings holds a character that is
    not white space (and the normalized lengths sum to less than 2^53),
    [compareStrings] returns a number between 0 and 1, both included;
    in particular it does not return NaN. *)
Theorem compareStrings_in_range `{Runtime} (a b : jsstring) :
  trim a ≠ [] ∨ trim b ≠ [] →
  (Z.of_nat (length (normalize a) + length (normalize b)) < 2 ^ 53)%Z →
  Num.leb Num.zero (compareStrings (JStr a) (JStr b)) = true
  ∧ Num.leb (compareStrings (JStr a) (JStr b)) Num.one = true.
Proof.
  intros Htext Hlen.
  destruct (compareStrings_fine (JStr a) (JStr b)) as [Hf Hv]; [|done|by apply fine_between].
  simpl. intros _ _.
  destruct Htext as [Ht|Ht]; apply normalize_text in Ht.
  - destruct (normalize a); [done|simpl; lia].
  - destruct (normalize b); [done|simpl; lia].
Qed.

Lemma compareStrings_in_range_witness :
  Num.leb Num.zero (compareStrings (JStr (js "hello world")) (JStr (js "hello there"))) = true
  ∧ Num.leb (compareStrings (JStr (js "hello world")) (JStr (js "hello there"))) Num.one = true.
Proof. apply compareStrings_in_range; [left; by vm_compute|by vm_compute]. Defined.

(** X21: [compareStrings] returns NaN exactly when both arguments are
    non-empty strings that are empty after [toLowerCase().trim()], that
    is, strings of white space only (for normalized lengths that sum to
    less than 2^53). *)
Theorem compareStrings_nan `{Runtime} (x y : jsval) :
  (Z.of_nat (length (normalize (receiver x)) + length (normalize (receiver y))) < 2 ^ 53)%Z →
  Num.is_nan (compareStrings x y) = true
  ↔ truthy x = true ∧ truthy y = true
    ∧ normalize (receiver x) = [] ∧ normalize (receiver y) = [].
Proof.
  intros Hlen. split.
  - intros Hnan.
    destruct (truthy x) eqn:Hx; [|unfold compareStrings in Hnan; by rewrite Hx in Hnan].
    destruct (truthy y) eqn:Hy;
      [|unfold compareStrings in Hnan; by rewrite Hx, Hy in Hnan].
    destruct (normalize (receiver x)) as [|c a] eqn:Ea,
             (normalize (receiver y)) as [|d b] eqn:Eb; [done|..];
      exfalso;
      (destruct (compareStrings_fine x y) as [Hf _];
        [rewrite Ea, Eb; simpl; lia|by rewrite Ea, Eb|]);
      by destruct (compareStrings x y) as [[]|[]| |[] ? ?].
  - intros (Hx & Hy & Ha & Hb). unfold compareStrings.
    rewrite Hx, Hy, Ha, Hb. by vm_compute.
Qed.

Lemma compareStrings_nan_witness :
  Num.is_nan (compareStrings (JStr (js " ")) (JStr (js "hello"))) = true
  ↔ truthy (JStr (js " ")) = true ∧ truthy (JStr (js "hello")) = true
    ∧ normalize (receiver (JStr (js " "))) = []
    ∧ normalize (receiver (JStr (js "hello"))) = [].
Proof. apply compareStrings_nan. by vm_compute. Defined.

(** X9: two non-empty strings that become equal under
    [toLowerCase().trim()], and then hold at least one word token, score
    exactly 1: case and surrounding white space do not count. *)
Theorem compareStrings_equal_normalized `{Runtime} (a b : jsstring) :
  a ≠ [] → b ≠ [] → normalize a = normalize b →
  tokenize (normalize a) ≠ [] →
  (Z.of_nat (length (normalize a)) < 2 ^ 53)%Z →
  compareStrings (JStr a) (JStr b) = Num.one.
Proof.
  intros Ha Hb Heq Htok Hlen. unfold compareStrings.
  assert (truthy (JStr a) = true) as -> by (by destruct a).
  assert (truthy (JStr b) = true) as -> by (by destruct b).
  simpl. rewrite <- Heq. by apply confidence_same.
Qed.

Lemma compareStrings_equal_normalized_witness :
  compareStrings (JStr (js "  Hello World ")) (JStr (js "hello world")) = Num.one.
Proof. apply compareStrings_equal_normalized; by vm_compute. Defined.

Lemma lev_disjoint s t :
  (∀ c, c ∈ s → c ∉ t) → lev s t = Nat.max (length s) (length t).
Proof.
  revert t. induction s as [|c s IHs]; intros t Hd; [done|].
  induction t as [|d t IHt]; [done|].
  rewrite lev_cons.
  rewrite IHt, (IHs (d :: t)), (IHs t).
  - rewrite bool_decide_eq_false_2; [simpl; lia|].
    intros ->. apply (Hd d); apply elem_of_cons; by left.
  - intros x Hx Hx'. apply (Hd x); apply elem_of_cons; by right.
  - intros x Hx. apply Hd, elem_of_cons. by right.
  - intros x Hx Hx'. apply (Hd x); [done|]. apply elem_of_cons. by right.
Qed.

Lemma lcs_longest_disjoint s t :
  (∀ c, c ∈ s → c ∉ t) → lcs_longest s t = 0.
Proof.
  intros Hd. destruct (lcs_longest_block s t) as ([|c w] & Hs & Ht & <-); [done|].
  destruct Hs as (p & q & ->), Ht as (p' & q' & ->).
  destruct (Hd c); apply elem_of_app; right; apply elem_of_cons; by left.
Qed.

Lemma token_set_disjoint s t :
  (∀ c, c ∈ s → c ∉ t) → token_set s ∩ token_set t = ∅.
Proof.
  intros Hd. apply set_eq. intros x. split; [|by intros ?%elem_of_empty].
  intros [Hs Ht]%elem_of_intersection. unfold token_set in *.
  apply elem_of_list_to_set in Hs, Ht.
  pose proof (proj1 (Forall_forall _ _) (tokenize_Forall s) x Hs) as [Hne _].
  destruct x as [|c x]; [done|].
  destruct (Hd c); eapply tokenize_units; try done; apply elem_of_cons; by left.
Qed.

Lemma confidence_disjoint (a b : jsstring) :
  (∀ c, c ∈ a → c ∉ b) → 0 < Nat.max (length a) (length b) →
  (Z.of_nat (length a + length b) < 2 ^ 53)%Z →
  confidence a b = Num.zero.
Proof.
  intros Hd Hne Hlen. unfold confidence.
  assert (levScore a b = Num.zero) as ->.
  { unfold levScore. rewrite levenshtein_lev, lev_disjoint by done.
    destruct (div_counters (Nat.max (length a) (length b)) (Nat.max (length a) (length b)))
      as (_ & _ & -> & _); [lia..|done|by vm_compute]. }
  assert (jaccard a b = Num.zero) as ->.
  { apply jaccard_zero; [done|]. by apply token_set_disjoint. }
  assert (lcs a b = Num.zero) as ->.
  { unfold lcs. rewrite lcs_longest_disjoint by done.
    destruct (Nat.max (length a) (length b)) as [|n] eqn:E; [done|].
    destruct (div_counters 0 (S n)) as (_ & _ & _ & ->); [lia..|done|done]. }
  by vm_compute.
Qed.

(** X10: two strings, not both blank, whose normalized forms have no
    character in common score exactly 0: the edit distance is the larger
    length, no token and no substring is shared. *)
Theorem compareStrings_nothing_shared `{Runtime} (a b : jsstring) :
  trim a ≠ [] ∨ trim b ≠ [] →
  (∀ c, c ∈ normalize a → c ∉ normalize b) →
  (Z.of_nat (length (normalize a) + length (normalize b)) < 2 ^ 53)%Z →
  compareStrings (JStr a) (JStr b) = Num.zero.
Proof.
  intros Htext Hd Hlen. unfold compareStrings.
  destruct (truthy (JStr a)), (truthy (JStr b)); try done. simpl.
  rewrite confidence_disjoint; [by vm_compute|done| |done].
  destruct Htext as [Ht|Ht]; apply normalize_text in Ht.
  - destruct (normalize a); [done|simpl; lia].
  - destruct (normalize b); [done|simpl; lia].
Qed.

Lemma compareStrings_nothing_shared_witness :
  compareStrings (JStr (js "abc")) (JStr (js "XYZ 12")) = Num.zero.
Proof.
  apply compareStrings_nothing_shared; [left; by vm_compute| |by vm_compute].
  apply Forall_forall. by apply (bool_decide_unpack _); vm_compute.
Defined.

(** ** The substring score at its ends *)

Lemma substring_full (w s : jsstring) : substring w s → length s ≤ length w → s = w.
Proof.
  intros (p & q & ->) Hlen. rewrite !length_app in Hlen.
  destruct p; [|simpl in Hlen; lia]. destruct q; [|simpl in Hlen; lia].
  simpl. by rewrite app_nil_r.
Qed.

Lemma lcs_longest_full (a b : jsstring) :
  lcs_longest a b = Nat.max (length a) (length b) → a = b.
Proof.
  intros Hmax. destruct (lcs_longest_block a b) as (w & Ha & Hb & Hw).
  rewrite (substring_full w a), (substring_full w b); [done|done|lia|done|lia].
Qed.

Lemma lcs_longest_shared (a b : jsstring) c : c ∈ a → c ∈ b → 0 < lcs_longest a b.
Proof.
  intros [p [q ->]]%list_elem_of_split [p' [q' ->]]%list_elem_of_split.
  apply (lcs_longest_max _ _ [c]); [by exists p, q|by exists p', q'].
Qed.

Lemma lcs_one (a b : jsstring) :
  (Z.of_nat (length a + length b) < 2 ^ 53)%Z →
  lcs a b = Num.one ↔ a = b ∧ a ≠ [].
Proof.
  intros Hlen. unfold lcs. pose proof (lcs_longest_bound a b) as Hb. split.
  - destruct (Nat.max (length a) (length b)) as [|n] eqn:E; [done|]. intros Hone.
    destruct (decide (lcs_longest a b = S n)) as [Heq|Hne].
    + rewrite <- E in Heq. apply lcs_longest_full in Heq as <-.
      split; [done|]. intros ->. simpl in E. lia.
    + exfalso. destruct (lcs_longest a b) as [|i] eqn:Ei.
      * destruct (div_counters 0 (S n)) as (_ & _ & _ & H0); [lia..|].
        rewrite H0 in Hone; done.
      * destruct (div_counters_inside (S i) (S n)) as [_ Hlt]; [lia..|].
        by apply val_lt_ne in Hlt.
  - intros [<- Hne]. rewrite lcs_longest_refl, Nat.max_id.
    destruct (length a) as [|n] eqn:E; [by destruct a|].
    destruct (div_counters (S n) (S n)) as (_ & _ & H1 & _); [lia..|]. by apply H1.
Qed.

Lemma lcs_zero (a b : jsstring) :
  (Z.of_nat (length a + length b) < 2 ^ 53)%Z →
  lcs a b = Num.zero ↔ ∀ c, c ∈ a → c ∉ b.
Proof.
  intros Hlen. unfold lcs. pose proof (lcs_longest_bound a b) as Hb. split.
  - intros Hz c Hc Hc'. pose proof (lcs_longest_shared a b c Hc Hc') as Hpos.
    destruct (Nat.max (length a) (length b)) as [|n] eqn:E; [lia|].
    destruct (decide (lcs_longest a b = S n)) as [Heq|Hne].
    + destruct (div_counters (S n) (S n)) as (_ & _ & H1 & _); [lia..|].
      rewrite Heq, H1 in Hz; done.
    + destruct (div_counters_inside (lcs_longest a b) (S n)) as [Hlt _]; [lia..|].
      rewrite Hz in Hlt. simpl in Hlt. lia.
  - intros Hd. rewrite lcs_longest_disjoint by done.
    destruct (Nat.max (length a) (length b)) as [|n] eqn:E; [done|].
    destruct (div_counters 0 (S n)) as (_ & _ & _ & H0); [lia..|]. by apply H0.
Qed.

(** X5: for strings whose lengths sum to less than 2^53, the substring
    score [lcs(a, b)] is 1 exactly when the two strings are equal and not
    empty, and 0 exactly when they have no character in common. *)
Theorem lcs_ends (a b : jsstring) :
  (Z.of_nat (length a + length b) < 2 ^ 53)%Z →
  (lcs a b = Num.one ↔ a = b ∧ a ≠ [])
  ∧ (lcs a b = Num.zero ↔ ∀ c, c ∈ a → c ∉ b).
Proof. intros Hlen. split; [by apply lcs_one|by apply lcs_zero]. Qed.

Lemma lcs_ends_witness :
  (lcs (js "hello") (js "help") = Num.one ↔ js "hello" = js "help" ∧ js "hello" ≠ [])
  ∧ (lcs (js "hello") (js "help") = Num.zero ↔ ∀ c, c ∈ js "hello" → c ∉ js "help").
Proof. apply lcs_ends. by vm_compute. Defined.

(** ** sanitizeName: the characters of the tokens *)

Lemma replace_runs_from_Forall (P : codeunit → Prop) cls b s :
  P SPACE → Forall P s → Forall P (replace_runs_from cls b s).
Proof.
  intros HP Hs. revert b. induction Hs as [|c s Hc Hs IH]; intros b; simpl; [done|].
  destruct (cls c); [destruct b|]; auto.
Qed.

Lemma replace_runs_punct s :
  Forall (λ c, is_punct c = false) (replace_runs is_punct s).
Proof.
  eapply Forall_impl; [apply replace_runs_from_only_SPACE|].
  intros c Hc. simpl in Hc. destruct (is_punct c) eqn:E; [|done]. by rewrite Hc in E.
Qed.

Lemma cleaned_units `{Runtime} s :
  Forall (λ c, is_punct c = false ∧ (is_space c = true → c = SPACE)) (cleaned s).
Proof.
  unfold cleaned. apply trim_Forall, Forall_and. split.
  - apply replace_runs_from_Forall; [done|apply replace_runs_punct].
  - apply replace_runs_from_only_SPACE.
Qed.

Lemma name_tokens_units `{Runtime} s :
  Forall (λ t, t ≠ [] ∧ Forall token_unit t) (name_tokens s).
Proof.
  unfold name_tokens, filter_Boolean, split_char.
  apply Forall_forall. intros t [Ht Hin]%list_elem_of_filter.
  split; [by destruct t|].
  pose proof (split_char_from_Forall _ SPACE [] _ (Forall_nil_2 _) (cleaned_units s)) as H1.
  pose proof (split_char_from_no_sep SPACE [] (cleaned s) (Forall_nil_2 _)) as H2.
  rewrite Forall_forall in H1, H2. specialize (H1 _ Hin). specialize (H2 _ Hin).
  rewrite Forall_forall in H1, H2. apply Forall_forall. intros c Hc.
  destruct (H1 c Hc) as [Hp Hs]. split; [done|].
  destruct (is_space c) eqn:E; [|done]. exfalso. by apply (H2 c Hc), Hs.
Qed.

Lemma stripped_tokens_eq `{Runtime} s :
  stripped_tokens s
  = pop_suffixes (length (drop_honorifics (name_tokens s))) (drop_honorifics (name_tokens s)).
Proof. done. Qed.

Lemma stripped_tokens_units `{Runtime} s :
  Forall (Forall token_unit) (stripped_tokens s).
Proof.
  rewrite stripped_tokens_eq. apply pop_suffixes_Forall, drop_honorifics_Forall.
  eapply Forall_impl; [apply name_tokens_units|]. by intros t [_ ?].
Qed.

Lemma single_letter_units t : is_single_letter t = true → Forall token_unit t.
Proof.
  destruct t as [|c [|? ?]]; try done. simpl. intros Hc. constructor; [|done].
  unfold is_lower_az, in_range in Hc. apply andb_prop in Hc as [H1 H2].
  apply N.leb_le in H1, H2.
  split.
  - unfold is_punct. rewrite !orb_false_iff, !N.eqb_neq. lia.
  - destruct (is_space c) eqn:E; [|done]. apply is_space_spec in E. lia.
Qed.

Lemma collapse_from_units (P : codeunit → Prop) buffer toks :
  Forall P buffer → Forall (Forall P) toks →
  Forall (Forall P) (collapse_from buffer toks).
Proof.
  intros Hb Ht. revert buffer Hb.
  induction Ht as [|t toks Ht Hts IH]; intros buffer Hb; simpl.
  - destruct (truthy_str buffer); by repeat constructor.
  - destruct (is_single_letter t).
    + apply IH, Forall_app. by split.
    + apply Forall_app. split; [destruct (truthy_str buffer); by repeat constructor|].
      constructor; [done|]. by apply IH.
Qed.

Lemma join_Forall (P : codeunit → Prop) sep toks :
  P sep → Forall (Forall P) toks → Forall P (join sep toks).
Proof.
  intros Hsep Ht. induction Ht as [|t toks Ht Hts IH]; [done|].
  destruct toks as [|u toks]; [done|].
  rewrite join_cons_cons. apply Forall_app. split; [done|]. by constructor.
Qed.

(** X11: the string [sanitizeName] returns holds none of the punctuation
    characters of line 144 (underscore, full stop, comma, solidus, reverse
    solidus, apostrophe, U+2019, quotation mark, hyphen) and no white
    space character other than the plain space U+0020. *)
Theorem sanitizeName_units `{Runtime} (s : jsval) :
  Forall (λ c, is_punct c = false ∧ (is_space c = true → c = SPACE)) (sanitizeName s).
Proof.
  destruct (truthy s) eqn:Hs; [|unfold sanitizeName; by rewrite Hs].
  destruct (sanitizeName_tokens s Hs) as [-> _].
  apply join_Forall; [done|].
  eapply Forall_impl; [apply collapse_from_units, stripped_tokens_units; done|].
  intros t Ht. eapply Forall_impl; [exact Ht|]. intros c [Hp Hc]. split; [done|].
  by rewrite Hc.
Qed.

(** ** sanitizeName: what the two stripping loops remove *)

Lemma strip_trailing_dots_id t : Forall (λ c, c ≠ DOT) t → strip_trailing_dots t = t.
Proof.
  intros Ht. unfold strip_trailing_dots.
  apply Forall_reverse in Ht. 
  destruct (reverse t) as [|c r] eqn:E.
  - simpl. by rewrite <- (reverse_involutive t), E.
  - apply Forall_cons in Ht as [Hc _].
    rewrite drop_while_id by (by apply N.eqb_neq).
    by rewrite <- E, reverse_involutive.
Qed.

Lemma token_unit_no_dot t : Forall token_unit t → Forall (λ c, c ≠ DOT) t.
Proof. intros Ht. eapply Forall_impl; [exact Ht|]. by intros c [Hp _] ->. Qed.

Lemma drop_honorifics_split toks :
  ∃ hs, toks = hs ++ drop_honorifics toks ∧ Forall (λ t, t ∈ HONORIFICS) hs.
Proof.
  induction toks as [|t toks (hs & Heq & Hhs)]; [by exists []|]. simpl.
  case_bool_decide as Ht; [|by exists []].
  exists (t :: hs). split; [by rewrite Heq at 1|by constructor].
Qed.

Lemma removelast_last {A} (l : list A) x : last l = Some x → l = removelast l ++ [x].
Proof.
  intros Hx. destruct (decide (l = [])) as [->|Hne]; [done|].
  rewrite (app_removelast_last x Hne) at 1. f_equal. f_equal.
  clear Hne. induction l as [|y [|z l] IH]; [done|by injection Hx|by apply IH].
Qed.

Lemma pop_suffixes_split n toks :
  ∃ ss, toks = pop_suffixes n toks ++ ss
        ∧ Forall (λ t, strip_trailing_dots t ∈ SUFFIXES) ss.
Proof.
  revert toks. induction n as [|n IH]; intros toks; simpl.
  - exists []. by rewrite app_nil_r.
  - destruct (ends_with_suffix toks) eqn:E; [|exists []; by rewrite app_nil_r].
    unfold ends_with_suffix in E. destruct (last toks) as [t|] eqn:Hl; [|done].
    apply bool_decide_eq_true in E.
    destruct (IH (removelast toks)) as (ss & Heq & Hss).
    exists (ss ++ [t]). split.
    + rewrite app_assoc, <- Heq. by apply removelast_last.
    + apply Forall_app. split; [done|]. by repeat constructor.
Qed.

(** X12: the two stripping loops (lines 150-156) remove tokens at the two
    ends only, and as many as they can: the tokens of the cleaned name are
    a run of honorifics, then the tokens that are kept, then a run of
    suffixes; the token after the removed honorifics is no honorific and
    the last token kept is no suffix. An honorific or a suffix between
    other tokens is kept. *)
Theorem stripped_tokens_middle `{Runtime} (s : jsval) :
  ∃ hs ss,
    name_tokens s = hs ++ stripped_tokens s ++ ss
    ∧ Forall (λ t, t ∈ HONORIFICS) hs
    ∧ Forall (λ t, t ∈ SUFFIXES) ss
    ∧ (∀ t, head (stripped_tokens s ++ ss) = Some t → t ∉ HONORIFICS)
    ∧ (∀ t, last (stripped_tokens s) = Some t → t ∉ SUFFIXES).
Proof.
  destruct (drop_honorifics_split (name_tokens s)) as (hs & Hh & Hhs).
  destruct (pop_suffixes_split (length (drop_honorifics (name_tokens s)))
              (drop_honorifics (name_tokens s))) as (ss & Hp & Hss).
  rewrite <- stripped_tokens_eq in Hp.
  exists hs, ss. split; [by rewrite <- Hp|]. split; [done|]. split; [|split].
  - assert (Forall (Forall token_unit) ss) as Hu.
    { assert (Forall (Forall token_unit) (drop_honorifics (name_tokens s))) as Hd.
      { apply drop_honorifics_Forall. eapply Forall_impl; [apply name_tokens_units|].
        by intros t [_ ?]. }
      rewrite Hp in Hd. by apply Forall_app in Hd as [_ ?]. }
    rewrite Forall_forall in Hss, Hu. apply Forall_forall. intros t Ht.
    rewrite <- (strip_trailing_dots_id t); [by apply Hss|].
    by apply token_unit_no_dot, Hu.
  - rewrite <- Hp. apply drop_honorifics_head.
  - apply stripped_tokens_last.
Qed.

(** X13: no token of a name ends in a full stop, since full stops were
    replaced by spaces before the split (line 144): the
    [replace(/\.+$/, '')] of line 154 never changes a token, and the suffix
    loop tests nothing but whether the last token is in [SUFFIXES]. *)
Theorem name_tokens_no_dots `{Runtime} (s : jsval) :
  Forall (λ t, strip_trailing_dots t = t) (name_tokens s)
  ∧ ∀ toks, toks `sublist_of` name_tokens s →
      ends_with_suffix toks = true ↔ ∃ t, last toks = Some t ∧ t ∈ SUFFIXES.
Proof.
  assert (Forall (λ t, strip_trailing_dots t = t) (name_tokens s)) as Hd.
  { eapply Forall_impl; [apply name_tokens_units|].
    intros t [_ Ht]. by apply strip_trailing_dots_id, token_unit_no_dot. }
  split; [done|]. intros toks Hsub. unfold ends_with_suffix.
  destruct (last toks) as [t|] eqn:Hl.
  - assert (strip_trailing_dots t = t) as ->.
    { rewrite Forall_forall in Hd. apply Hd.
      eapply elem_of_sublist; [|done]. rewrite (removelast_last toks t Hl).
      apply elem_of_app. right. by apply list_elem_of_singleton. }
    rewrite bool_decide_eq_true. split; [by exists t|]. by intros (? & [= <-] & ?).
  - split; [done|]. by intros (? & ? & ?).
Qed.

(** ** sanitizeName: the loop that collapses initials *)

Lemma collapse_from_concat buffer toks :
  concat (collapse_from buffer toks) = buffer ++ concat toks.
Proof.
  revert buffer. induction toks as [|t toks IH]; intros buffer; simpl.
  - destruct buffer; simpl; by rewrite ?app_nil_r.
  - destruct (is_single_letter t).
    + by rewrite IH, <- app_assoc.
    + rewrite concat_app. simpl. rewrite IH. simpl.
      destruct buffer; simpl; by rewrite ?app_nil_r.
Qed.

Lemma collapse_from_length buffer toks :
  length (collapse_from buffer toks)
  ≤ (if truthy_str buffer then 1 else 0) + length toks.
Proof.
  revert buffer. induction toks as [|t toks IH]; intros buffer; simpl.
  - destruct (truthy_str buffer); simpl; lia.
  - destruct (is_single_letter t) eqn:Ht.
    + specialize (IH (buffer ++ t)). destruct t as [|c [|? ?]]; try done.
      assert (truthy_str (buffer ++ [c]) = true) as Hb by (by destruct buffer).
      rewrite Hb in IH. destruct (truthy_str buffer); lia.
    + rewrite length_app. simpl. specialize (IH []). simpl in IH.
      destruct (truthy_str buffer); simpl; lia.
Qed.

(** X14: the loop that collapses initials (lines 158-171) only removes
    the boundaries between tokens: the characters of the tokens, read in
    a row, are unchanged, and there are never more tokens than before. *)
Theorem collapse_initials_keeps_text (tokens : list jsstring) :
  concat (collapse_initials tokens) = concat tokens
  ∧ length (collapse_initials tokens) ≤ length tokens.
Proof.
  rewrite collapse_initials_from. split.
  - by rewrite collapse_from_concat.
  - apply (collapse_from_length [] tokens).
Qed.



(** ** sanitizeName: the tokens of the result *)

(** X16: for a non-empty input, [sanitizeName] returns the collapsed
    tokens joined by single spaces, and splitting the result on spaces as
    [structuralBonus] does (line 192) gives these tokens back. *)
Theorem sanitizeName_round_trip `{Runtime} (s : jsval) :
  truthy s = true →
  space_tokens (sanitizeName s) = collapse_initials (stripped_tokens s)
  ∧ sanitizeName s = join SPACE (collapse_initials (stripped_tokens s)).
Proof.
  intros Hs. destruct (sanitizeName_tokens s Hs) as [-> Hg].
  rewrite collapse_initials_from. split; [|done].
  apply space_tokens_join.
  eapply Forall_impl; [exact Hg|]. apply good_token_no_SPACE.
Qed.

Lemma sanitizeName_round_trip_witness :
  space_tokens (sanitizeName (JStr (js "Mr. H. E. Smith, Jr.")))
  = collapse_initials (stripped_tokens (JStr (js "Mr. H. E. Smith, Jr.")))
  ∧ sanitizeName (JStr (js "Mr. H. E. Smith, Jr."))
    = join SPACE (collapse_initials (stripped_tokens (JStr (js "Mr. H. E. Smith, Jr.")))).
Proof. by apply sanitizeName_round_trip. Defined.

(** ** structuralBonus and compareNames at the ends of the scale *)

Lemma tokens_of_blank s : Forall (λ c, c = SPACE) s → tokens_of s [].
Proof. induction 1 as [|c s -> Hs IH]; by constructor. Qed.

Lemma tokens_of_nil s toks : tokens_of s toks → toks = [] → Forall (λ c, c = SPACE) s.
Proof. induction 1; intros Hnil; [done|constructor; auto|done]. Qed.

(** X17: [structuralBonus(x, x)] is 0 when [x] is empty or nothing but
    spaces, and 0.07 when [x] holds a character other than the space. *)
Theorem structuralBonus_self (x : jsstring) :
  ((∀ c, c ∈ x → c = SPACE) → structuralBonus x x = Num.zero)
  ∧ ((∃ c, c ∈ x ∧ c ≠ SPACE) → structuralBonus x x = Num.dec 7 2).
Proof.
  pose proof (space_tokens_spec x) as Ht.
  rewrite (structuralBonus_tokens x x _ _ Ht Ht). split.
  - intros Hx. assert (Forall (λ c, c = SPACE) x) as Hb by (by apply Forall_forall).
    pose proof (tokens_of_unique _ _ (tokens_of_blank _ Hb)) as He. by rewrite <- He.
  - intros (c & Hc & Hne). destruct (space_tokens x) as [|t ts] eqn:E.
    + pose proof (tokens_of_nil _ _ Ht eq_refl) as Hb.
      rewrite Forall_forall in Hb. by destruct (Hne (Hb c Hc)).
    + unfold bonus_of_tokens. rewrite !bool_decide_eq_true_2 by done. by vm_compute.
Qed.


Lemma structuralBonus_empty_l y : structuralBonus [] y = Num.zero.
Proof. done. Qed.

Lemma structuralBonus_empty_r x : structuralBonus x [] = Num.zero.
Proof. by rewrite structuralBonus_sym. Qed.

(** X18: when one of the two names sanitizes to the empty string (an
    absent value, an empty string, a name made of honorifics only),
    [compareNames] returns 0. *)
Theorem compareNames_empty `{Runtime} (a b : jsval) :
  sanitizeName a = [] ∨ sanitizeName b = [] → compareNames a b = Num.zero.
Proof.
  intros Hab. rewrite compareNames_eq.
  destruct Hab as [-> | ->].
  - by rewrite structuralBonus_empty_l.
  - rewrite structuralBonus_empty_r, compareStrings_sym. done.
Qed.

Lemma compareNames_empty_witness :
  compareNames (JStr (js "Dr.")) (JStr (js "Dr. John Smith")) = Num.zero.
Proof. apply compareNames_empty. left. by vm_compute. Defined.

Lemma min_one_bonus x y : Num.min Num.one (Num.add Num.one (structuralBonus x y)) = Num.one.
Proof.
  pose proof (structuralBonus_values x y) as Hv.
  rewrite !elem_of_cons, elem_of_nil in Hv.
  destruct Hv as [-> | [-> | [-> | [-> | []]]]]; by vm_compute.
Qed.

(** X19: two names with the same non-empty sanitized form, holding at
    least one word token, score exactly 1 whatever their honorifics,
    suffixes, case and punctuation were: the bonus is cut off by
    [Math.min(1, base + bonus)]. *)
Theorem compareNames_same `{Runtime} (a b : jsval) :
  sanitizeName a = sanitizeName b → sanitizeName a ≠ [] →
  tokenize (normalize (sanitizeName a)) ≠ [] →
  (Z.of_nat (length (normalize (sanitizeName a))) < 2 ^ 53)%Z →
  compareNames a b = Num.one.
Proof.
  intros Heq Hne Htok Hlen. rewrite compareNames_eq, <- Heq.
  unfold compareStrings.
  assert (truthy (JStr (sanitizeName a)) = true) as -> by (by destruct (sanitizeName a)).
  simpl. rewrite confidence_same by done. apply min_one_bonus.
Qed.

Lemma compareNames_same_witness :
  compareNames (JStr (js "Dr. John Smith, Jr.")) (JStr (js "john smith")) = Num.one.
Proof. apply compareNames_same; by vm_compute. Defined.

(** X20: [compareNames] returns a number between 0 and 1, both included,
    for all inputs (whose sanitized forms have lengths that sum to less
    than 2^53); unlike [compareStrings] it never returns NaN, because a
    sanitized name is empty or holds a character that is not white
    space. *)
Theorem compareNames_in_range `{Runtime} (a b : jsval) :
  (Z.of_nat (length (normalize (sanitizeName a))
             + length (normalize (sanitizeName b))) < 2 ^ 53)%Z →
  Num.leb Num.zero (compareNames a b) = true
  ∧ Num.leb (compareNames a b) Num.one = true.
Proof.
  intros Hlen. rewrite compareNames_eq.
  set (base := compareStrings _ _). set (bonus := structuralBonus _ _).
  assert (fine base) as Hf.
  { apply compareStrings_fine; [|done]. simpl. intros Ha _.
    assert (normalize (sanitizeName a) ≠ []) as Hn.
    { apply sanitizeName_normalize. by destruct (sanitizeName a). }
    destruct (normalize (sanitizeName a)); [done|simpl; lia]. }
  destruct (add_good base bonus) as (Hg & _ & _);
    [by left|left; apply structuralBonus_fine|].
  destruct (min_one_fine _ Hg) as (Hfr & Hle & _).
  by apply fine_between.
Qed.

Lemma compareNames_in_range_witness :
  Num.leb Num.zero (compareNames (JStr (js "Ms. Jane Doe")) (JStr (js "Jane D."))) = true
  ∧ Num.leb (compareNames (JStr (js "Ms. Jane Doe")) (JStr (js "Jane D."))) Num.one = true.
Proof. apply compareNames_in_range. by vm_compute. Defined.

